(** * mvn.py: resolving the download URLs of the latest Apache Maven release

    A shallow embedding of [bin_list] from [mvn.py] together with the parts
    of the Python runtime it relies on: [str.strip], [bytes.decode('utf-8')],
    the backtracking matcher behind [re.finditer], [list.sort(reverse=True)]
    on strings, and f-string concatenation.  The single network access
    ([urlopen]) is an event of a small interaction type, so that the number
    of requests a call performs can be stated; the opener behind [urlopen]
    turns one such event into the HTTP requests it sends, following
    redirects. *)

From Stdlib Require Import List NArith ZArith Arith Lia Bool String Ascii Strings.Byte.
From Stdlib Require Import Permutation Sorted.
Import ListNotations.

Set Implicit Arguments.

(** ** Strings and bytes *)

(** A Python [str] is a sequence of Unicode code points; [bytes] is a
    sequence of octets. *)
Definition char := N.
Definition str := list char.
Definition bytes := list Byte.byte.

(** The code points of an ASCII literal of the source text. *)
Definition lit (s : string) : str :=
  List.map N_of_ascii (list_ascii_of_string s).

(** The octets of a bytes literal. *)
Definition blit (s : string) : bytes := list_byte_of_string s.

Definition chr (a : ascii) : char := N_of_ascii a.

(** *** [str.strip(chars)] *)

Fixpoint lstrip (c : char) (s : str) : str :=
  match s with
  | [] => []
  | x :: s' => if N.eqb x c then lstrip c s' else s
  end.

Definition rstrip (c : char) (s : str) : str := rev (lstrip c (rev s)).

(** [s.strip(c)] for a one-character [c]: the slice between the first and
    the last character different from [c]. *)
Definition strip (c : char) (s : str) : str := rstrip c (lstrip c s).

(** *** Comparison of strings: lexicographic on code points *)

Fixpoint str_ltb (a b : str) : bool :=
  match a, b with
  | _, [] => false
  | [], _ :: _ => true
  | x :: a', y :: b' =>
      if N.ltb x y then true
      else if N.ltb y x then false
      else str_ltb a' b'
  end.

(** [a <= b] for strings, i.e. [not (b < a)]. *)
Definition str_leb (a b : str) : bool := negb (str_ltb b a).

(** *** [list.sort(reverse=True)]

    The sort is stable and only uses [<]; with [reverse=True] the result is
    descending and equal elements keep their original order.  Insertion from
    the right has exactly this result. *)
Fixpoint insert_desc (x : str) (l : list str) : list str :=
  match l with
  | [] => [x]
  | y :: l' => if str_ltb x y then y :: insert_desc x l' else x :: l
  end.

Fixpoint sort_reverse (l : list str) : list str :=
  match l with
  | [] => []
  | x :: l' => insert_desc x (sort_reverse l')
  end.

(** *** [bytes.decode('utf-8')], strict error handling

    The decoder accepts exactly the well-formed sequences: no stray
    continuation octet, no overlong form, no surrogate, nothing above
    U+10FFFF.  [None] stands for [UnicodeDecodeError]. *)
Definition is_cont (b : N) : bool := (128 <=? b)%N && (b <? 192)%N.

Fixpoint utf8_decode (bs : list N) : option str :=
  match bs with
  | [] => Some []
  | b0 :: t0 =>
      if (b0 <? 128)%N then option_map (cons b0) (utf8_decode t0)
      else if (b0 <? 192)%N then None
      else if (b0 <? 224)%N then
        match t0 with
        | b1 :: t1 =>
            let cp := ((b0 - 192) * 64 + (b1 - 128))%N in
            if is_cont b1 && (128 <=? cp)%N
            then option_map (cons cp) (utf8_decode t1) else None
        | _ => None
        end
      else if (b0 <? 240)%N then
        match t0 with
        | b1 :: b2 :: t2 =>
            let cp := ((b0 - 224) * 4096 + (b1 - 128) * 64 + (b2 - 128))%N in
            if is_cont b1 && is_cont b2 && (2048 <=? cp)%N
               && negb ((55296 <=? cp)%N && (cp <=? 57343)%N)
            then option_map (cons cp) (utf8_decode t2) else None
        | _ => None
        end
      else if (b0 <? 248)%N then
        match t0 with
        | b1 :: b2 :: b3 :: t3 =>
            let cp := ((b0 - 240) * 262144 + (b1 - 128) * 4096
                       + (b2 - 128) * 64 + (b3 - 128))%N in
            if is_cont b1 && is_cont b2 && is_cont b3
               && (65536 <=? cp)%N && (cp <=? 1114111)%N
            then option_map (cons cp) (utf8_decode t3) else None
        | _ => None
        end
      else None
  end.

Definition decode (raw : bytes) : option str :=
  utf8_decode (List.map Byte.to_N raw).

(** The encoder, used only to say what a valid UTF-8 body is. *)
Definition is_scalar (c : char) : bool :=
  (c <=? 1114111)%N && negb ((55296 <=? c)%N && (c <=? 57343)%N).

Definition utf8_encode1 (c : char) : list N :=
  if (c <? 128)%N then [c]
  else if (c <? 2048)%N then [192 + c / 64; 128 + c mod 64]%N
  else if (c <? 65536)%N then
    [224 + c / 4096; 128 + (c / 64) mod 64; 128 + c mod 64]%N
  else [240 + c / 262144; 128 + (c / 4096) mod 64;
        128 + (c / 64) mod 64; 128 + c mod 64]%N.

Definition utf8_encode (s : str) : list N := flat_map utf8_encode1 s.

(** A body is valid UTF-8 when it is the encoding of a sequence of Unicode
    scalar values. *)
Definition valid_utf8 (raw : bytes) : Prop :=
  exists s, forallb is_scalar s = true /\ List.map Byte.to_N raw = utf8_encode s.

(** ** The Unicode character database

    [\d] and [\w] of a [str] pattern consult the Unicode database of the
    interpreter, which is not part of the source.  Its ASCII part is fixed;
    the rest is a parameter. *)
Record ucd := {
  ucd_alpha : char -> bool;
  ucd_decimal : char -> bool;
  ucd_digit : char -> bool;
  ucd_numeric : char -> bool
}.

(** A database with no letters or digits outside ASCII. *)
Definition ascii_ucd : ucd :=
  {| ucd_alpha := fun _ => false; ucd_decimal := fun _ => false;
     ucd_digit := fun _ => false; ucd_numeric := fun _ => false |}.

Definition in_range (lo hi c : char) : bool := (lo <=? c)%N && (c <=? hi)%N.

Section Unicode.
Variable U : ucd.

Definition isdecimal (c : char) : bool :=
  if (c <? 128)%N then in_range 48%N 57%N c else ucd_decimal U c.
Definition isdigit (c : char) : bool :=
  if (c <? 128)%N then in_range 48%N 57%N c else ucd_digit U c.
Definition isnumeric (c : char) : bool :=
  if (c <? 128)%N then in_range 48%N 57%N c else ucd_numeric U c.
Definition isalpha (c : char) : bool :=
  if (c <? 128)%N then in_range 65%N 90%N c || in_range 97%N 122%N c
  else ucd_alpha U c.
Definition isalnum (c : char) : bool :=
  isalpha c || isdecimal c || isdigit c || isnumeric c.

(** The categories behind [\d] and [\w]. *)
Definition re_digit (c : char) : bool := isdecimal c.
Definition re_word (c : char) : bool := isalnum c || N.eqb c 95%N.
End Unicode.

(** ** Regular expressions and the backtracking matcher *)

Inductive regex : Type :=
| Lit (c : char)             (* a literal character *)
| Digit                      (* \d *)
| Word                       (* \w *)
| Cat (r1 r2 : regex)        (* r1 r2 *)
| Alt (r1 r2 : regex)        (* r1|r2 *)
| Plus (r : regex)           (* r+, greedy *)
| Grp (n : nat) (r : regex). (* the n-th capturing group *)

(** The state of a match attempt: the position in the subject, the text that
    remains from there, and the spans of the groups closed so far (the most
    recent first). *)
Record mstate := MState {
  pos : nat;
  rest : str;
  marks : list (nat * (nat * nat))
}.

Definition advance (st : mstate) (t : str) : mstate :=
  MState (S (pos st)) t (marks st).

Definition set_mark (n : nat) (b e : nat) (st : mstate) : mstate :=
  MState (pos st) (rest st) ((n, (b, e)) :: marks st).

Fixpoint lookup_mark (n : nat) (ms : list (nat * (nat * nat))) : option (nat * nat) :=
  match ms with
  | [] => None
  | (m, sp) :: ms' => if Nat.eqb m n then Some sp else lookup_mark n ms'
  end.

(** First alternative that succeeds. *)
Definition orelse {A} (x y : option A) : option A :=
  match x with Some _ => x | None => y end.

Section Matcher.
Variable U : ucd.

Definition step_if (p : char -> bool) (st : mstate)
           (k : mstate -> option mstate) : option mstate :=
  match rest st with
  | c :: t => if p c then k (advance st t) else None
  | [] => None
  end.

(** The rounds of a greedy repetition of [body]: after a round that
    consumed something, first try one more round, then the continuation
    [k]; a round that consumed nothing ends the repetition.  [fuel] bounds
    the number of rounds and is the length of the remaining text, which no
    repetition can exceed (see [rounds_fuel]). *)
Fixpoint rounds (body : mstate -> (mstate -> option mstate) -> option mstate)
         (k : mstate -> option mstate) (fuel : nat) (st : mstate)
  : option mstate :=
  body st (fun st1 =>
    match fuel with
    | S fuel' =>
        if Nat.ltb (pos st) (pos st1)
        then orelse (rounds body k fuel' st1) (k st1)
        else k st1
    | O => k st1
    end).

(** [exec r st k] matches [r] at [st] and hands every way of doing so, in
    priority order, to the continuation [k] until one succeeds: the left
    alternative before the right one, one more round of a repetition before
    leaving it. *)
Fixpoint exec (r : regex) (st : mstate) (k : mstate -> option mstate)
  : option mstate :=
  match r with
  | Lit c => step_if (N.eqb c) st k
  | Digit => step_if (re_digit U) st k
  | Word => step_if (re_word U) st k
  | Cat r1 r2 => exec r1 st (fun st1 => exec r2 st1 k)
  | Alt r1 r2 => orelse (exec r1 st k) (exec r2 st k)
  | Grp n r1 => exec r1 st (fun st1 => k (set_mark n (pos st) (pos st1) st1))
  | Plus r1 => rounds (exec r1) k (List.length (rest st)) st
  end.

(** A match object: where the match starts and the final matcher state. *)
Record rmatch := RMatch { m_start : nat; m_final : mstate }.

Definition m_end (m : rmatch) : nat := pos (m_final m).

Definition match_at (r : regex) (p : nat) (t : str) : option rmatch :=
  option_map (RMatch p) (exec r (MState p t []) Some).

(** [re.finditer]: scan left to right, try a match at every position that
    is not inside the previous match.  [skip] counts the characters still
    covered by the previous match.  No expression of this syntax matches
    the empty string (see [match_at_progress]), so what [finditer] does
    after an empty match needs no model. *)
Fixpoint finditer_from (r : regex) (p : nat) (t : str) (skip : nat)
  : list rmatch :=
  match t with
  | [] =>
      match skip with
      | O => match match_at r p [] with Some m => [m] | None => [] end
      | S _ => []
      end
  | _ :: t' =>
      match skip with
      | S n => finditer_from r (S p) t' n
      | O =>
          match match_at r p t with
          | Some m => m :: finditer_from r (S p) t' (m_end m - p - 1)
          | None => finditer_from r (S p) t' 0
          end
      end
  end.

Definition finditer (r : regex) (s : str) : list rmatch :=
  finditer_from r 0 s 0.
End Matcher.

(** [s[b:e]] *)
Definition slice (s : str) (b e : nat) : str := firstn (e - b) (skipn b s).

(** [m.group(n)] on the subject [s]; a group that took no part in the match
    is [None]. *)
Definition group (s : str) (m : rmatch) (n : nat) : option str :=
  match n with
  | O => Some (slice s (m_start m) (m_end m))
  | _ => option_map (fun sp => slice s (fst sp) (snd sp))
                    (lookup_mark n (marks (m_final m)))
  end.

(** ** The program *)

(** [r'>(\d+((\.|-)(\d|\w)+)+)'].  The token part is written once, with the
    number [g] of its first group as a parameter: inside the pattern of the
    program its groups are 2, 3 and 4. *)
Definition token_regex (g : nat) : regex :=
  Cat (Plus Digit)
      (Plus (Grp g (Cat (Grp (S g) (Alt (Lit (chr ".")) (Lit (chr "-"))))
                        (Plus (Grp (S (S g)) (Alt Digit Word)))))).

Definition pattern : regex := Cat (Lit (chr ">")) (Grp 1 (token_regex 2)).

(** What [urlopen(url)] followed by [resp.read()] can give: an exception of
    the transport, or the octets of the body. *)
Inductive response : Type :=
| Failed
| Served (raw : bytes).

Inductive exn : Type :=
| URLError             (* urlopen or read failed *)
| UnicodeDecodeError   (* the body is not UTF-8 *)
| IndexError.          (* vers[0] on an empty list *)

Inductive result (A : Type) : Type :=
| Return (a : A)
| Raise (e : exn).
Arguments Raise {A} e.

(** Programs that talk to the network: finished, or one request followed by
    what is done with its answer. *)
Inductive io (A : Type) : Type :=
| Done (a : A)
| UrlOpen (url : str) (k : response -> io A).
Arguments UrlOpen {A} url k.

Section Run.
Variables (A W : Type).
(** The outside world answers a request and moves on. *)
Variable serve : W -> str -> response * W.

(** Running a program: its value, the world afterwards and the requests it
    made, in order. *)
Fixpoint run (p : io A) (w : W) : A * W * list str :=
  match p with
  | Done a => (a, w, [])
  | UrlOpen url k =>
      let '(resp, w') := serve w url in
      let '(a, w'', log) := run (k resp) w' in
      (a, w'', url :: log)
  end.
End Run.

(** Running against a fixed site. *)
Definition run_on (A : Type) (site : str -> response) (p : io A) : A :=
  fst (fst (run (fun (w : unit) url => (site url, w)) p tt)).

Definition default_url : str :=
  lit "https://archive.apache.org/dist/maven/maven-3/".

Section Program.
Variable U : ucd.

(** [[m.group(1) for m in re.finditer(pattern, body)]].  Group 1 encloses
    the whole token and takes part in every match (see
    [group1_participates]); the default is never used. *)
Definition versions_of (r : regex) (body : str) : list str :=
  List.map (fun m => match group body m 1 with Some t => t | None => [] end)
           (finditer U r body).

Definition bin_list (url : str) : io (result (list str)) :=
  let url := strip (chr "/") url in
  UrlOpen url (fun resp =>
    Done
      match resp with
      | Failed => Raise URLError
      | Served raw =>
          match decode raw with
          | None => Raise UnicodeDecodeError
          | Some body =>
              let vers := versions_of pattern body in
              let vers := sort_reverse vers in
              match vers with
              | [] => Raise IndexError
              | latest_ver :: _ =>
                  let list_url :=
                    url ++ lit "/" ++ latest_ver ++ lit "/binaries" in
                  Return
                    [list_url ++ lit "/apache-maven-" ++ latest_ver
                              ++ lit "-bin.tar.gz";
                     list_url ++ lit "/apache-maven-" ++ latest_ver
                              ++ lit "-bin.zip"]
              end
          end
      end).
End Program.

(** ** Notions used to state the properties *)

(** The template of the specification:
    [{base}/{version}/binaries/apache-maven-{version}-bin.{ext}]. *)
Definition template_url (base version ext : str) : str :=
  base ++ lit "/" ++ version ++ lit "/binaries/apache-maven-" ++ version
       ++ lit "-bin." ++ ext.

(** What a call does once the answer to its request is known. *)
Definition outcome (U : ucd) (url : str) (resp : response) : result (list str) :=
  match resp with
  | Failed => Raise URLError
  | Served raw =>
      match decode raw with
      | None => Raise UnicodeDecodeError
      | Some body =>
          match sort_reverse (versions_of U pattern body) with
          | [] => Raise IndexError
          | v :: _ =>
              Return [template_url url v (lit "tar.gz");
                      template_url url v (lit "zip")]
          end
      end
  end.

(** [a >= b] on strings. *)
Definition str_ge (a b : str) : Prop := str_ltb a b = false.

(** [st1] is [st] after consuming [w]. *)
Definition consumed (st : mstate) (w : str) (st1 : mstate) : Prop :=
  rest st = w ++ rest st1 /\ pos st1 = pos st + List.length w.

(** The strings a regular expression denotes, whatever the priorities of the
    matcher. *)
Inductive matches (U : ucd) : regex -> str -> Prop :=
| M_lit c : matches U (Lit c) [c]
| M_digit c : re_digit U c = true -> matches U Digit [c]
| M_word c : re_word U c = true -> matches U Word [c]
| M_cat r1 r2 w1 w2 :
    matches U r1 w1 -> matches U r2 w2 -> matches U (Cat r1 r2) (w1 ++ w2)
| M_alt_l r1 r2 w : matches U r1 w -> matches U (Alt r1 r2) w
| M_alt_r r1 r2 w : matches U r2 w -> matches U (Alt r1 r2) w
| M_plus_one r w : matches U r w -> matches U (Plus r) w
| M_plus_more r w1 w2 :
    matches U r w1 -> matches U (Plus r) w2 -> matches U (Plus r) (w1 ++ w2)
| M_grp n r w : matches U r w -> matches U (Grp n r) w.

(** Two matcher states that are at the same place and agree on the groups
    selected by [G]. *)
Definition agree (G : nat -> bool) (s1 s2 : mstate) : Prop :=
  pos s1 = pos s2 /\ rest s1 = rest s2 /\
  forall n, G n = true -> lookup_mark n (marks s1) = lookup_mark n (marks s2).

Definition oagree (G : nat -> bool) (o1 o2 : option mstate) : Prop :=
  match o1, o2 with
  | Some s1, Some s2 => agree G s1 s2
  | None, None => True
  | _, _ => False
  end.

(** Two regular expressions that the matcher cannot tell apart as far as the
    groups in [G] are concerned. *)
Definition sim (U : ucd) (G : nat -> bool) (r1 r2 : regex) : Prop :=
  forall s1 s2 k1 k2,
    agree G s1 s2 ->
    (forall t1 t2, agree G t1 t2 -> oagree G (k1 t1) (k2 t2)) ->
    oagree G (exec U r1 s1 k1) (exec U r2 s2 k2).

(** Matches found by two such expressions. *)
Definition magree (G : nat -> bool) (m1 m2 : rmatch) : Prop :=
  m_start m1 = m_start m2 /\ agree G (m_final m1) (m_final m2).

(** The pattern of the specification on its own, [\d+((\.|-)(\d|\w)+)+],
    and the collection the specification describes: of all non-overlapping
    matches of that pattern in the body, the text of those that start right
    after a [>]. *)
Definition version_token : regex := token_regex 1.

Definition preceded_by (c : char) (s : str) (m : rmatch) : bool :=
  match m_start m with
  | O => false
  | S i => match nth_error s i with Some x => N.eqb x c | None => false end
  end.

Definition tokens_after_gt (U : ucd) (body : str) : list str :=
  List.map (fun m => slice body (m_start m) (m_end m))
    (List.filter (preceded_by (chr ">") body)
                 (finditer U version_token body)).

(** The characters an expression can consume. *)
Fixpoint may_consume (U : ucd) (r : regex) (c : char) : bool :=
  match r with
  | Lit x => N.eqb x c
  | Digit => re_digit U c
  | Word => re_word U c
  | Cat r1 r2 | Alt r1 r2 => may_consume U r1 c || may_consume U r2 c
  | Plus r1 | Grp _ r1 => may_consume U r1 c
  end.

(** Whether the text before the current position ends with [>]. *)
Definition gt_before (pre : str) : bool :=
  match rev pre with
  | x :: _ => N.eqb x (chr ">")
  | [] => false
  end.

(** The scan of the program's pattern and the scan of the bare token
    expression, side by side at the same position: [a] and [b] are the
    characters each of them still skips.  Right after a [>] the second scan
    skips nothing and the first one skips the token it has just reported,
    which the second is about to report ([pending]).  Elsewhere the two skip
    in step, or the first one is idle, and no [>] is skipped. *)
Definition pending (U : ucd) (body pre t : str) : list str :=
  if gt_before pre
  then match match_at U version_token (List.length pre) t with
       | Some m => [slice body (List.length pre) (m_end m)]
       | None => []
       end
  else [].

Definition scan_inv (U : ucd) (pre t : str) (a b : nat) : Prop :=
  if gt_before pre
  then b = 0 /\
       a = match match_at U version_token (List.length pre) t with
           | Some m => m_end m - List.length pre
           | None => 0
           end
  else (a = b \/ a = 0) /\ Forall (fun x => x <> chr ">") (firstn b t).

(** The simpler pattern [r'>(\d+((\.|-)\w+)+)']. *)
Definition simple_token_regex (g : nat) : regex :=
  Cat (Plus Digit)
      (Plus (Grp g (Cat (Grp (S g) (Alt (Lit (chr ".")) (Lit (chr "-"))))
                        (Plus Word)))).

Definition simple_pattern : regex :=
  Cat (Lit (chr ">")) (Grp 1 (simple_token_regex 2)).

(** ** Notions used for the further properties *)

(** The separators of a token. *)
Definition is_sep (c : char) : bool := N.eqb (chr ".") c || N.eqb (chr "-") c.

(** Whether a text starts with a character of a class. *)
Definition starts_with (p : char -> bool) (t : str) : bool :=
  match t with c :: _ => p c | [] => false end.

(** The longest prefix of characters of a class: its length and what is
    left after it. *)
Fixpoint run_length (p : char -> bool) (t : str) : nat :=
  match t with
  | c :: t' => if p c then S (run_length p t') else 0
  | [] => 0
  end.

Fixpoint drop_while (p : char -> bool) (t : str) : str :=
  match t with
  | c :: t' => if p c then drop_while p t' else t
  | [] => []
  end.

(** The matcher state after such a prefix. *)
Definition skip_run (p : char -> bool) (st : mstate) : mstate :=
  MState (pos st + run_length p (rest st)) (drop_while p (rest st)) (marks st).

(** The token expression without its groups and with [\w] for [\d|\w]. *)
Definition plain_token : regex :=
  Cat (Plus Digit)
      (Plus (Cat (Alt (Lit (chr ".")) (Lit (chr "-"))) (Plus Word))).

Definition sep_word : regex :=
  Cat (Alt (Lit (chr ".")) (Lit (chr "-"))) (Plus Word).

(** One round of separator and word run, taken greedily. *)
Definition sw_next (U : ucd) (st : mstate) : option mstate :=
  match rest st with
  | c :: t =>
      if is_sep c && starts_with (re_word U) t
      then Some (skip_run (re_word U) (advance st t))
      else None
  | [] => None
  end.

(** Whether a token starts at the beginning of [t]: the run of digits there
    is not empty and is followed by a separator and a word character. *)
Definition token_starts_here (U : ucd) (t : str) : bool :=
  starts_with (re_digit U) t
  && match drop_while (re_digit U) t with
     | c :: t' => is_sep c && starts_with (re_word U) t'
     | [] => false
     end.

(** Whether the text [t] after a token would continue it: a word character,
    or a separator followed by a word character. *)
Definition token_continues (U : ucd) (t : str) : bool :=
  starts_with (re_word U) t
  || match t with
     | c :: t' => is_sep c && starts_with (re_word U) t'
     | [] => false
     end.


(** The characters a token is made of. *)
Definition token_char (U : ucd) (c : char) : bool := re_word U c || is_sep c.

(** ** The text of [f'{url}'] *)

(** Lower-case hexadecimal digits, as in [\xhh]. *)
Definition hex_digit (n : N) : char :=
  if (n <? 10)%N then (48 + n)%N else (87 + n)%N.

Fixpoint hex (width : nat) (c : N) : str :=
  match width with
  | O => []
  | S w => hex w (c / 16)%N ++ [hex_digit (c mod 16)%N]
  end.

Section Repr.
(** [str.isprintable] of a character outside ASCII, from the Unicode
    database. *)
Variable printable : char -> bool.

(** One character of [repr(s)] inside the quotes [quote]. *)
Definition repr_char (quote c : char) : str :=
  if N.eqb c quote || N.eqb c 92%N then [92%N; c]
  else if N.eqb c 9%N then lit "\t"
  else if N.eqb c 10%N then lit "\n"
  else if N.eqb c 13%N then lit "\r"
  else if (c <? 32)%N || N.eqb c 127%N then lit "\x" ++ hex 2 c
  else if (c <? 127)%N then [c]
  else if printable c then [c]
  else if (c <=? 255)%N then lit "\x" ++ hex 2 c
  else if (c <=? 65535)%N then lit "\u" ++ hex 4 c
  else lit "\U" ++ hex 8 c.

(** [repr(s)] of a string: single quotes, unless the string has a single
    quote and no double quote. *)
Definition repr_str (s : str) : str :=
  let quote :=
    if existsb (N.eqb 39%N) s && negb (existsb (N.eqb 34%N) s)
    then 34%N else 39%N in
  quote :: flat_map (repr_char quote) s ++ [quote].

Fixpoint join (sep : str) (l : list str) : str :=
  match l with
  | [] => []
  | [x] => x
  | x :: l' => x ++ sep ++ join sep l'
  end.

(** [repr(l)] of a list of strings, which is what [f'{l}'] gives. *)
Definition repr_list (l : list str) : str :=
  lit "[" ++ join (lit ", ") (List.map repr_str l) ++ lit "]".
End Repr.

(** A character that [repr] copies as it is inside single quotes. *)
Definition plain (printable : char -> bool) (c : char) : bool :=
  negb (N.eqb c 39%N) && negb (N.eqb c 92%N)
  && (if (c <? 127)%N then (32 <=? c)%N
      else negb (N.eqb c 127%N) && printable c).

(** ** The opener behind [urlopen] *)

(** What comes back for one HTTP request, as the default opener of
    [urllib.request] sorts it: a status 2xx, with the octets [read()] then
    gives; a redirect it may follow (301, 302, 303, 307 or 308 to a GET,
    with a Location that resolves to the http, https or ftp URL [target]);
    anything else, which it raises (another status, a redirect it may not
    follow, no answer at all, a read that fails). *)
Inductive answer : Type :=
| Answered (raw : bytes)
| Moved (target : str)
| Refused.

Fixpoint str_eqb (a b : str) : bool :=
  match a, b with
  | [], [] => true
  | x :: a', y :: b' => N.eqb x y && str_eqb a' b'
  | _, _ => false
  end.

(** [HTTPRedirectHandler.max_repeats] and [max_redirections]. *)
Definition max_repeats : nat := 4.
Definition max_redirections : nat := 10.

(** The [redirect_dict] of a request: how often each URL was the target of
    a redirect followed so far. *)
Definition redirect_dict := list (str * nat).

(** [visited.get(url, 0)] *)
Fixpoint visits (url : str) (visited : redirect_dict) : nat :=
  match visited with
  | [] => 0
  | (u, n) :: rest => if str_eqb u url then n else visits url rest
  end.

(** [visited[url] = visited.get(url, 0) + 1] *)
Fixpoint visit (url : str) (visited : redirect_dict) : redirect_dict :=
  match visited with
  | [] => [(url, 1)]
  | (u, n) :: rest =>
      if str_eqb u url then (u, S n) :: rest else (u, n) :: visit url rest
  end.

Section Opener.
Variable Net : Type.
(** The network: it answers one HTTP request and moves on. *)
Variable http : Net -> str -> answer * Net.

(** [OpenerDirector.open] with the default handlers: send the request; on
    a redirect, give up when the target was followed [max_repeats] times
    already or [max_redirections] targets are on record, otherwise note the
    target and open it.  [wire] lists the requests sent, the oldest first.
    [fuel] bounds the requests of one call; the limits of the handler end
    every call before it runs out (see [open_url_fuel]). *)
Fixpoint open_url (fuel : nat) (visited : redirect_dict) (url : str)
         (s : Net) (wire : list str) : response * (Net * list str) :=
  match fuel with
  | O => (Failed, (s, wire))
  | S fuel' =>
      let (a, s') := http s url in
      let wire' := wire ++ [url] in
      match a with
      | Answered raw => (Served raw, (s', wire'))
      | Refused => (Failed, (s', wire'))
      | Moved target =>
          if Nat.leb max_repeats (visits target visited)
             || Nat.leb max_redirections (List.length visited)
          then (Failed, (s', wire'))
          else open_url fuel' (visit target visited) target s' wire'
      end
  end.

(** [urlopen(url)] followed by [read()], as a world for [run]: the network
    and the record of what was sent on it. *)
Definition urlopen_http (w : Net * list str) (url : str)
  : response * (Net * list str) :=
  open_url 41 [] url (fst w) (snd w).
End Opener.



(** ** Example listings *)

Definition page_3_8 : string :=
  "<pre><a href=3.6.3/>3.6.3/</a> 2020-07-03 04:01 <a href=3.8.1/>3.8.1/</a> <a href=3.8.4/>3.8.4/</a> <a href=3.8.5/>3.8.5/</a></pre>".

Definition page_3_10 : string :=
  "<a href=3.9.0/>3.9.0/</a> <a href=3.10.0/>3.10.0/</a>".

Definition page_empty : string :=
  "<hr></pre> 2012-09-11 09:37 </body></html>".

Definition listing_3_8 : bytes := blit page_3_8.
Definition listing_3_10 : bytes := blit page_3_10.
Definition listing_empty : bytes := blit page_empty.

(** The page quoted in the comment at the head of [mvn.py].  Its double
    quotes are written as single quotes here and put back by [requote]. *)
Fixpoint requote (s : string) : string :=
  match s with
  | EmptyString => EmptyString
  | String c s' =>
      String (if Ascii.eqb c "'" then ascii_of_nat 34 else c) (requote s')
  end.

Definition unlines (ls : list string) : string :=
  fold_right (fun l acc => (l ++ String (ascii_of_nat 10) acc)%string)
             EmptyString ls.

Fixpoint spaces (n : nat) : string :=
  match n with
  | O => EmptyString
  | S n' => String " " (spaces n')
  end.

(** A row of the listing; the name column is 24 characters wide. *)
Definition apache_row (entry : string * string) : string :=
  ("<img src='/icons/folder.gif' alt='[DIR]'> <a href='" ++ fst entry
   ++ "/'>" ++ fst entry ++ "/</a>"
   ++ spaces (23 - String.length (fst entry)) ++ snd entry
   ++ "    -")%string.

Definition apache_entries : list (string * string) :=
    [("3.0.4"%string, "2012-09-11 09:37"%string);
     ("3.0.5"%string, "2020-07-03 04:01"%string);
     ("3.1.0-alpha-1"%string, "2013-06-07 06:32"%string);
     ("3.1.0"%string, "2013-07-14 13:03"%string);
     ("3.1.1"%string, "2020-07-03 04:01"%string);
     ("3.2.1"%string, "2014-03-10 11:08"%string);
     ("3.2.2"%string, "2014-06-26 00:11"%string);
     ("3.2.3"%string, "2014-08-15 17:30"%string);
     ("3.2.5"%string, "2020-07-03 04:01"%string);
     ("3.3.1"%string, "2015-03-17 17:28"%string);
     ("3.3.3"%string, "2015-04-28 15:12"%string);
     ("3.3.9"%string, "2020-07-03 04:01"%string);
     ("3.5.0-alpha-1"%string, "2017-02-28 22:25"%string);
     ("3.5.0-beta-1"%string, "2017-03-24 10:48"%string);
     ("3.5.0"%string, "2017-10-04 10:47"%string);
     ("3.5.2"%string, "2018-05-04 11:19"%string);
     ("3.5.3"%string, "2018-05-04 11:19"%string);
     ("3.5.4"%string, "2020-07-03 04:01"%string);
     ("3.6.0"%string, "2018-10-31 16:43"%string);
     ("3.6.1"%string, "2019-09-03 16:54"%string);
     ("3.6.2"%string, "2019-09-03 20:13"%string);
     ("3.6.3"%string, "2020-07-03 04:01"%string);
     ("3.8.1"%string, "2021-04-04 12:24"%string);
     ("3.8.2"%string, "2021-08-13 19:53"%string);
     ("3.8.3"%string, "2021-10-03 16:34"%string);
     ("3.8.4"%string, "2021-11-20 14:43"%string);
     ("3.8.5"%string, "2022-03-13 11:21"%string)].

Definition apache_page : string :=
  requote (unlines
    (["<!DOCTYPE HTML PUBLIC '-//W3C//DTD HTML 3.2 Final//EN'>"%string;
      "<html>"%string;
      " <head>"%string;
      "  <title>Index of /dist/maven/maven-3</title>"%string;
      " </head>"%string;
      " <body>"%string;
      "<h1>Index of /dist/maven/maven-3</h1>"%string;
      "<pre><img src='/icons/blank.gif' alt='Icon '> <a href='?C=N;O=D'>Name</a>                    <a href='?C=M;O=A'>Last modified</a>      <a href='?C=S;O=A'>Size</a>  <a href='?C=D;O=A'>Description</a><hr><img src='/icons/back.gif' alt='[PARENTDIR]'> <a href='/dist/maven/'>Parent Directory</a>                             -"%string]
     ++ List.map apache_row apache_entries
     ++ ["<hr></pre>"%string; "</body></html>"%string])%list).

(** The tokens of [page_3_10] in another order, one of them twice. *)
Definition page_3_10_again : string :=
  "<b>3.10.0</b><i>3.9.0</i> <a href=3.9.0/>3.9.0/</a>".

(** A release and a pre-release of it. *)
Definition page_prerelease : string :=
  "<a href=3.1.0/>3.1.0/</a> <a href=3.1.0-alpha-1/>3.1.0-alpha-1/</a>".

(** The default URL behind a stray leading slash. *)
Definition slash_url : str :=
  lit "/https://archive.apache.org/dist/maven/maven-3/".

(** A Latin-1 body: the octet E9 is not followed by continuation octets. *)
Definition listing_latin1 : bytes := blit "<a>3.8.5/</a> caf" ++ [Byte.xe9].

Definition serving (raw : bytes) (url : str) : response := Served raw.

(** A world that counts the requests it has answered and serves [raw]. *)
Definition counting (raw : bytes) (n : nat) (url : str) : response * nat :=
  (Served raw, S n).

(** ** Example networks *)


(** The default URL is a directory: asked without the final slash, the
    server redirects to the URL with it, and serves the listing there. *)
Definition directory_server (raw : bytes) (s : unit) (url : str)
  : answer * unit :=
  if str_eqb url (lit "https://archive.apache.org/dist/maven/maven-3")
  then (Moved (lit "https://archive.apache.org/dist/maven/maven-3/"), s)
  else (Answered raw, s).

(** Servers that only redirect: always to the same URL, to and fro between
    two URLs, to a longer URL each time. *)
Definition loop_server (s : unit) (url : str) : answer * unit :=
  (Moved (lit "http://host/a"), s).

Definition pingpong_server (s : unit) (url : str) : answer * unit :=
  if str_eqb url (lit "http://host/a")
  then (Moved (lit "http://host/b"), s)
  else (Moved (lit "http://host/a"), s).

Definition chain_server (s : unit) (url : str) : answer * unit :=
  (Moved (url ++ lit "/x"), s).

(** * Properties *)

(** ** Stripping *)

Lemma lstrip_repeat_app c n s : lstrip c (repeat c n ++ s) = lstrip c s.
Proof.
  induction n as [|n IH]; simpl; [reflexivity|].
  now rewrite N.eqb_refl.
Qed.

Lemma lstrip_app_repeat c n s :
  lstrip c (s ++ repeat c n) =
  match lstrip c s with [] => [] | _ :: _ => lstrip c s ++ repeat c n end.
Proof.
  induction s as [|x s IH]; simpl.
  - rewrite <- (app_nil_r (repeat c n)), lstrip_repeat_app. reflexivity.
  - destruct (N.eqb x c); [exact IH | reflexivity].
Qed.

Lemma rev_repeat (c : char) n : rev (repeat c n) = repeat c n.
Proof.
  induction n as [|n IH]; simpl; [reflexivity|].
  rewrite IH. clear IH. induction n as [|n IH]; simpl; [reflexivity|].
  now rewrite IH.
Qed.

Lemma rstrip_app_repeat c n s : rstrip c (s ++ repeat c n) = rstrip c s.
Proof.
  unfold rstrip. now rewrite rev_app_distr, rev_repeat, lstrip_repeat_app.
Qed.

Lemma strip_app_repeat c n s : strip c (s ++ repeat c n) = strip c s.
Proof.
  unfold strip. rewrite lstrip_app_repeat.
  destruct (lstrip c s) eqn:E; [reflexivity|].
  apply rstrip_app_repeat.
Qed.

Lemma strip_repeat_app c n s : strip c (repeat c n ++ s) = strip c s.
Proof. unfold strip. now rewrite lstrip_repeat_app. Qed.

Lemma lstrip_decompose c s : exists i, s = repeat c i ++ lstrip c s.
Proof.
  induction s as [|x s [i IH]]; simpl.
  - now exists 0.
  - destruct (N.eqb_spec x c) as [->|_].
    + exists (S i). simpl. now rewrite <- IH.
    + now exists 0.
Qed.

Lemma lstrip_head c s : hd_error (lstrip c s) <> Some c.
Proof.
  induction s as [|x s IH]; simpl; [discriminate|].
  destruct (N.eqb_spec x c) as [->|Hx]; [exact IH|].
  simpl. congruence.
Qed.

Lemma rstrip_decompose c s : exists j, s = rstrip c s ++ repeat c j.
Proof.
  unfold rstrip. destruct (lstrip_decompose c (rev s)) as [j Hj].
  exists j. rewrite <- (rev_involutive s) at 1.
  rewrite Hj at 1. now rewrite rev_app_distr, rev_repeat.
Qed.

Lemma rstrip_last c s : hd_error (rev (rstrip c s)) <> Some c.
Proof. unfold rstrip. rewrite rev_involutive. apply lstrip_head. Qed.

Lemma rstrip_head c s : hd_error s <> Some c -> hd_error (rstrip c s) <> Some c.
Proof.
  intros H. destruct (rstrip_decompose c s) as [j Hj].
  destruct (rstrip c s) as [|x r] eqn:E; [discriminate|].
  rewrite Hj in H. exact H.
Qed.

(** [strip] removes a run of [c] at each end and leaves a text that neither
    starts nor ends with [c]. *)
Lemma strip_decompose c s :
  exists i j, s = repeat c i ++ strip c s ++ repeat c j
              /\ hd_error (strip c s) <> Some c
              /\ hd_error (rev (strip c s)) <> Some c.
Proof.
  destruct (lstrip_decompose c s) as [i Hi].
  destruct (rstrip_decompose c (lstrip c s)) as [j Hj].
  exists i, j. unfold strip. split; [|split].
  - now rewrite <- Hj.
  - apply rstrip_head, lstrip_head.
  - apply rstrip_last.
Qed.

(** ** Order and sorting *)

Lemma str_ltb_irrefl a : str_ltb a a = false.
Proof.
  induction a as [|x a IH]; simpl; [reflexivity|].
  now rewrite N.ltb_irrefl.
Qed.

Lemma str_ltb_asym a b : str_ltb a b = true -> str_ltb b a = false.
Proof.
  revert b. induction a as [|x a IH]; intros [|y b]; simpl; try easy.
  destruct (N.ltb_spec x y), (N.ltb_spec y x); try easy; try lia.
  apply IH.
Qed.

Lemma str_ge_trans a b c : str_ge a b -> str_ge b c -> str_ge a c.
Proof.
  unfold str_ge. revert b c.
  induction a as [|x a IH]; intros [|y b] [|z c]; simpl; try easy.
  destruct (N.ltb_spec x y), (N.ltb_spec y x), (N.ltb_spec y z),
    (N.ltb_spec z y), (N.ltb_spec x z), (N.ltb_spec z x);
    try easy; try lia.
  apply IH.
Qed.

(** The order is total: two strings that are not below one another are the
    same string. *)
Lemma str_ge_antisym a b : str_ge a b -> str_ge b a -> a = b.
Proof.
  unfold str_ge. revert b.
  induction a as [|x a IH]; intros [|y b]; simpl; try easy.
  destruct (N.ltb_spec x y), (N.ltb_spec y x); try easy; try lia.
  intros H1 H2. f_equal; [lia | now apply IH].
Qed.

Lemma insert_desc_perm x l : Permutation (x :: l) (insert_desc x l).
Proof.
  induction l as [|y l IH]; simpl; [reflexivity|].
  destruct (str_ltb x y); [|reflexivity].
  rewrite perm_swap. now constructor.
Qed.

Lemma sort_reverse_perm l : Permutation l (sort_reverse l).
Proof.
  induction l as [|x l IH]; simpl; [constructor|].
  rewrite <- insert_desc_perm. now constructor.
Qed.

Lemma sort_reverse_In l t : In t (sort_reverse l) <-> In t l.
Proof.
  split; apply Permutation_in;
    [symmetry|]; apply sort_reverse_perm.
Qed.

(** A list is descending when every element is [>=] all later ones. *)
Lemma insert_desc_sorted x l :
  StronglySorted str_ge l ->
  StronglySorted str_ge (insert_desc x l).
Proof.
  induction 1 as [|y l Hs IH Hy]; simpl.
  - repeat constructor.
  - destruct (str_ltb x y) eqn:E.
    + constructor; [exact IH|].
      rewrite Forall_forall in *. intros z Hz.
      apply (Permutation_in _ (Permutation_sym (insert_desc_perm x l))) in Hz.
      destruct Hz as [<-|Hz]; [now apply str_ltb_asym | now apply Hy].
    + constructor; [now constructor|].
      constructor; [exact E|].
      rewrite Forall_forall in *. intros z Hz.
      apply str_ge_trans with y; [exact E | now apply Hy].
Qed.

Lemma sort_reverse_sorted l : StronglySorted str_ge (sort_reverse l).
Proof.
  induction l as [|x l IH]; simpl; [constructor|].
  now apply insert_desc_sorted.
Qed.

(** The first element after sorting is an element of the list and no element
    is above it. *)
Lemma sort_reverse_head l v r :
  sort_reverse l = v :: r ->
  In v l /\ forall t, In t l -> str_leb t v = true.
Proof.
  intros E. split.
  - apply sort_reverse_In. rewrite E. now left.
  - intros t Ht. apply sort_reverse_In in Ht.
    pose proof (sort_reverse_sorted l) as Hs. rewrite E in Hs, Ht.
    inversion Hs as [|? ? _ Hall]; subst.
    unfold str_leb. destruct Ht as [<-|Ht].
    + now rewrite str_ltb_irrefl.
    + rewrite Forall_forall in Hall. now rewrite (Hall _ Ht).
Qed.

Lemma sort_reverse_nil l : sort_reverse l = [] -> l = [].
Proof.
  intros E. apply Permutation_nil. rewrite <- E.
  symmetry. apply sort_reverse_perm.
Qed.

(** ** Running the program *)

Lemma template_tar url v :
  (url ++ lit "/" ++ v ++ lit "/binaries") ++ lit "/apache-maven-" ++ v
     ++ lit "-bin.tar.gz"
  = template_url url v (lit "tar.gz").
Proof. unfold template_url. rewrite <- !app_assoc. reflexivity. Qed.

Lemma template_zip url v :
  (url ++ lit "/" ++ v ++ lit "/binaries") ++ lit "/apache-maven-" ++ v
     ++ lit "-bin.zip"
  = template_url url v (lit "zip").
Proof. unfold template_url. rewrite <- !app_assoc. reflexivity. Qed.

(** A run is one request to the stripped URL, and its value is [outcome] of
    the answer. *)
Lemma run_bin_list U W (serve : W -> str -> response * W) (w : W) url :
  run serve (bin_list U url) w =
  (outcome U (strip (chr "/") url) (fst (serve w (strip (chr "/") url))),
   snd (serve w (strip (chr "/") url)),
   [strip (chr "/") url]).
Proof.
  unfold bin_list. cbn [run].
  destruct (serve w (strip (chr "/") url)) as [resp w']. cbn [fst snd].
  repeat f_equal. unfold outcome.
  destruct resp as [|raw]; [reflexivity|].
  destruct (decode raw) as [body|]; [|reflexivity].
  destruct (sort_reverse (versions_of U pattern body)) as [|v r];
    [reflexivity|].
  now rewrite template_tar, template_zip.
Qed.

Lemma run_on_bin_list U site url :
  run_on site (bin_list U url) =
  outcome U (strip (chr "/") url) (site (strip (chr "/") url)).
Proof. unfold run_on. now rewrite run_bin_list. Qed.

(** ** The matcher *)

Section MatcherFacts.
Variable U : ucd.

Lemma consumed_refl st : consumed st [] st.
Proof. unfold consumed. simpl. split; [reflexivity | lia]. Qed.

Lemma consumed_trans st w1 st1 w2 st2 :
  consumed st w1 st1 -> consumed st1 w2 st2 -> consumed st (w1 ++ w2) st2.
Proof.
  unfold consumed. intros [H1 H2] [H3 H4]. split.
  - now rewrite H1, H3, app_assoc.
  - rewrite length_app. lia.
Qed.

Lemma consumed_set_mark st w st1 n b e :
  consumed st w st1 -> consumed st w (set_mark n b e st1).
Proof. exact (fun H => H). Qed.

Lemma consumed_length st w st1 :
  consumed st w st1 ->
  List.length (rest st) = List.length w + List.length (rest st1).
Proof. intros [H _]. now rewrite H, length_app. Qed.

(** *** Continuations only matter on the states the matcher can reach *)

Lemma step_if_ext p st k1 k2 :
  (forall w st1, consumed st w st1 -> k1 st1 = k2 st1) ->
  step_if p st k1 = step_if p st k2.
Proof.
  intros H. unfold step_if. destruct (rest st) as [|c t] eqn:E; [reflexivity|].
  destruct (p c); [|reflexivity].
  apply (H [c]). unfold consumed, advance. simpl. split; [exact E | lia].
Qed.

Lemma rounds_ext body k1 k2 fuel :
  (forall st k k',
      (forall w st1, consumed st w st1 -> k st1 = k' st1) ->
      body st k = body st k') ->
  forall st,
    (forall w st1, consumed st w st1 -> k1 st1 = k2 st1) ->
    rounds body k1 fuel st = rounds body k2 fuel st.
Proof.
  intros Hbody. induction fuel as [|fuel IH]; intros st H; simpl.
  - apply Hbody. exact H.
  - apply Hbody. intros w st1 Hw.
    rewrite (H _ _ Hw).
    destruct (Nat.ltb (pos st) (pos st1)); [|reflexivity].
    rewrite IH; [reflexivity|].
    intros w' st2 Hw'. apply (H (w ++ w')).
    now apply consumed_trans with st1.
Qed.

Lemma exec_ext r : forall st k1 k2,
  (forall w st1, consumed st w st1 -> k1 st1 = k2 st1) ->
  exec U r st k1 = exec U r st k2.
Proof.
  induction r as [c| | |r1 IH1 r2 IH2|r1 IH1 r2 IH2|r1 IH1|n r1 IH1];
    intros st k1 k2 H; simpl.
  - now apply step_if_ext.
  - now apply step_if_ext.
  - now apply step_if_ext.
  - apply IH1. intros w st1 Hw. apply IH2. intros w' st2 Hw'.
    apply (H (w ++ w')). now apply consumed_trans with st1.
  - now rewrite (IH1 st k1 k2 H), (IH2 st k1 k2 H).
  - now apply rounds_ext.
  - apply IH1. intros w st1 Hw. apply (H w).
    now apply consumed_set_mark.
Qed.

(** *** The fuel of a repetition is never used up *)

Lemma rounds_fuel r k : forall fuel st,
  List.length (rest st) <= fuel ->
  rounds (exec U r) k (S fuel) st = rounds (exec U r) k fuel st.
Proof.
  induction fuel as [|fuel IH]; intros st Hlen.
  - cbn [rounds]. apply exec_ext. intros w st1 Hw.
    pose proof (consumed_length Hw) as Hl. destruct Hw as [_ Hp].
    assert (List.length w = 0) by lia.
    replace (Nat.ltb (pos st) (pos st1)) with false; [reflexivity|].
    symmetry. apply Nat.ltb_ge. lia.
  - change (rounds (exec U r) k (S (S fuel)) st) with
      (exec U r st (fun st1 =>
         if Nat.ltb (pos st) (pos st1)
         then orelse (rounds (exec U r) k (S fuel) st1) (k st1)
         else k st1)).
    change (rounds (exec U r) k (S fuel) st) with
      (exec U r st (fun st1 =>
         if Nat.ltb (pos st) (pos st1)
         then orelse (rounds (exec U r) k fuel st1) (k st1)
         else k st1)).
    apply exec_ext. intros w st1 Hw.
    destruct (Nat.ltb_spec (pos st) (pos st1)) as [Hlt|]; [|reflexivity].
    rewrite IH; [reflexivity|].
    pose proof (consumed_length Hw) as Hl. destruct Hw as [_ Hp]. lia.
Qed.

Lemma rounds_more_fuel r k st n :
  rounds (exec U r) k (List.length (rest st) + n) st
  = rounds (exec U r) k (List.length (rest st)) st.
Proof.
  induction n as [|n IH]; [now rewrite Nat.add_0_r|].
  rewrite Nat.add_succ_r, rounds_fuel; [exact IH | lia].
Qed.
Lemma exec_ext_all r st k1 k2 :
  (forall st1, k1 st1 = k2 st1) -> exec U r st k1 = exec U r st k2.
Proof. intros H. apply exec_ext. intros _ st1 _. apply H. Qed.

(** *** A continuation that cannot fail only post-processes the result *)

Lemma orelse_map A B (f : A -> B) x y :
  orelse (option_map f x) (option_map f y) = option_map f (orelse x y).
Proof. now destruct x. Qed.

Lemma step_if_map p f st k :
  step_if p st (fun s => option_map f (k s)) = option_map f (step_if p st k).
Proof.
  unfold step_if. destruct (rest st) as [|x t]; [reflexivity|].
  now destruct (p x).
Qed.

Lemma rounds_map r f
      (IH : forall st k,
          exec U r st (fun s => option_map f (k s))
          = option_map f (exec U r st k)) k :
  forall fuel st,
    rounds (exec U r) (fun s => option_map f (k s)) fuel st
    = option_map f (rounds (exec U r) k fuel st).
Proof.
  induction fuel as [|fuel IHf]; intros st; cbn [rounds].
  - apply IH.
  - rewrite <- IH. apply exec_ext_all. intros st1.
    destruct (Nat.ltb (pos st) (pos st1)); [|reflexivity].
    now rewrite IHf, orelse_map.
Qed.

Lemma exec_map r f : forall st k,
  exec U r st (fun s => option_map f (k s)) = option_map f (exec U r st k).
Proof.
  induction r as [c| | |r1 IH1 r2 IH2|r1 IH1 r2 IH2|r1 IH1|n r1 IH1];
    intros st k; simpl.
  1-3: apply step_if_map.
  - rewrite <- IH1. apply exec_ext_all. intros st1. apply IH2.
  - now rewrite IH1, IH2, orelse_map.
  - now apply rounds_map.
  - apply (IH1 st (fun st1 => k (set_mark n (pos st) (pos st1) st1))).
Qed.

(** *** What the matcher finds is in the language of the expression *)

Lemma orelse_some A (x y : option A) v :
  orelse x y = Some v -> x = Some v \/ y = Some v.
Proof. destruct x; simpl; auto. Qed.

Lemma step_if_sound p st k x :
  step_if p st k = Some x ->
  exists c st1, p c = true /\ consumed st [c] st1 /\ k st1 = Some x.
Proof.
  unfold step_if. destruct (rest st) as [|c t] eqn:E; [discriminate|].
  destruct (p c) eqn:Hp; [|discriminate]. intros H.
  exists c, (advance st t). repeat split; auto.
  unfold advance. simpl. lia.
Qed.

Lemma rounds_sound r
      (IH : forall st k x, exec U r st k = Some x ->
            exists w st1, matches U r w /\ consumed st w st1 /\ k st1 = Some x)
      k x :
  forall fuel st,
    rounds (exec U r) k fuel st = Some x ->
    exists w st1,
      matches U (Plus r) w /\ consumed st w st1 /\ k st1 = Some x.
Proof.
  induction fuel as [|fuel IHf]; intros st H; cbn [rounds] in H;
    apply IH in H; destruct H as (w & st1 & Hm & Hc & Hk).
  - exists w, st1. auto using M_plus_one.
  - destruct (Nat.ltb (pos st) (pos st1)).
    + apply orelse_some in Hk. destruct Hk as [Hk|Hk].
      * apply IHf in Hk. destruct Hk as (w' & st2 & Hm' & Hc' & Hk').
        exists (w ++ w'), st2. split; [now apply M_plus_more|].
        split; [now apply consumed_trans with st1 | exact Hk'].
      * exists w, st1. auto using M_plus_one.
    + exists w, st1. auto using M_plus_one.
Qed.

Lemma exec_sound r : forall st k x,
  exec U r st k = Some x ->
  exists w st1, matches U r w /\ consumed st w st1 /\ k st1 = Some x.
Proof.
  induction r as [c| | |r1 IH1 r2 IH2|r1 IH1 r2 IH2|r1 IH1|n r1 IH1];
    intros st k x H; simpl in H.
  - apply step_if_sound in H. destruct H as (c' & st1 & Hp & Hc & Hk).
    apply N.eqb_eq in Hp. subst c'. exists [c], st1. auto using M_lit.
  - apply step_if_sound in H. destruct H as (c' & st1 & Hp & Hc & Hk).
    exists [c'], st1. auto using M_digit.
  - apply step_if_sound in H. destruct H as (c' & st1 & Hp & Hc & Hk).
    exists [c'], st1. auto using M_word.
  - apply IH1 in H. destruct H as (w1 & st1 & Hm1 & Hc1 & H).
    apply IH2 in H. destruct H as (w2 & st2 & Hm2 & Hc2 & H).
    exists (w1 ++ w2), st2. split; [now apply M_cat|].
    split; [now apply consumed_trans with st1 | exact H].
  - apply orelse_some in H. destruct H as [H|H].
    + apply IH1 in H. destruct H as (w & st1 & Hm & Hc & Hk).
      exists w, st1. auto using M_alt_l.
    + apply IH2 in H. destruct H as (w & st1 & Hm & Hc & Hk).
      exists w, st1. auto using M_alt_r.
  - now apply rounds_sound in H.
  - apply IH1 in H. destruct H as (w & st1 & Hm & Hc & Hk).
    exists w, (set_mark n (pos st) (pos st1) st1).
    split; [now apply M_grp|]. split; [exact Hc | exact Hk].
Qed.

(** A successful match attempt, seen from outside. *)
Lemma exec_Some_sound r st x :
  exec U r st Some = Some x ->
  exists w, matches U r w /\ consumed st w x.
Proof.
  intros H. apply exec_sound in H. destruct H as (w & st1 & Hm & Hc & E).
  injection E as <-. now exists w.
Qed.
End MatcherFacts.

(** ** Expressions the matcher cannot tell apart *)

Section Simulation.
Variable U : ucd.
Variable G : nat -> bool.

Lemma oagree_orelse a b c d :
  oagree G a b -> oagree G c d -> oagree G (orelse a c) (orelse b d).
Proof. destruct a, b; simpl; tauto. Qed.

Lemma agree_advance s1 s2 t : agree G s1 s2 -> agree G (advance s1 t) (advance s2 t).
Proof.
  intros (Hp & Hr & Hm). unfold agree, advance. simpl. auto.
Qed.

Lemma agree_set_mark n b e s1 s2 :
  agree G s1 s2 -> agree G (set_mark n b e s1) (set_mark n b e s2).
Proof.
  intros (Hp & Hr & Hm). unfold agree, set_mark. simpl.
  repeat split; auto. intros m Hg. destruct (Nat.eqb n m); auto.
Qed.

Lemma agree_set_mark_l n b e s1 s2 :
  G n = false -> agree G s1 s2 -> agree G (set_mark n b e s1) s2.
Proof.
  intros Hn (Hp & Hr & Hm). unfold agree, set_mark. simpl.
  repeat split; auto. intros m Hg.
  destruct (Nat.eqb_spec n m) as [->|_]; [congruence | auto].
Qed.

Lemma agree_set_mark_r n b e s1 s2 :
  G n = false -> agree G s1 s2 -> agree G s1 (set_mark n b e s2).
Proof.
  intros Hn (Hp & Hr & Hm). unfold agree, set_mark. simpl.
  repeat split; auto. intros m Hg.
  destruct (Nat.eqb_spec n m) as [->|_]; [congruence | auto].
Qed.

Lemma step_if_sim p s1 s2 k1 k2 :
  agree G s1 s2 ->
  (forall t1 t2, agree G t1 t2 -> oagree G (k1 t1) (k2 t2)) ->
  oagree G (step_if p s1 k1) (step_if p s2 k2).
Proof.
  intros Ha Hk. unfold step_if.
  assert (Hr : rest s2 = rest s1) by (now destruct Ha as (_ & -> & _)).
  rewrite Hr.
  destruct (rest s1) as [|c t]; [exact I|].
  destruct (p c); [|exact I].
  now apply Hk, agree_advance.
Qed.

Lemma sim_lit c : sim U G (Lit c) (Lit c).
Proof. intros s1 s2 k1 k2. apply step_if_sim. Qed.

Lemma sim_digit : sim U G Digit Digit.
Proof. intros s1 s2 k1 k2. apply step_if_sim. Qed.

Lemma sim_word : sim U G Word Word.
Proof. intros s1 s2 k1 k2. apply step_if_sim. Qed.

Lemma sim_cat r1 r2 q1 q2 :
  sim U G r1 q1 -> sim U G r2 q2 -> sim U G (Cat r1 r2) (Cat q1 q2).
Proof.
  intros H1 H2 s1 s2 k1 k2 Ha Hk. simpl.
  apply H1; [exact Ha|]. intros t1 t2 Ht. now apply H2.
Qed.

Lemma sim_alt r1 r2 q1 q2 :
  sim U G r1 q1 -> sim U G r2 q2 -> sim U G (Alt r1 r2) (Alt q1 q2).
Proof.
  intros H1 H2 s1 s2 k1 k2 Ha Hk. simpl.
  apply oagree_orelse; [now apply H1 | now apply H2].
Qed.

Lemma sim_plus r q : sim U G r q -> sim U G (Plus r) (Plus q).
Proof.
  intros H s1 s2 k1 k2 Ha Hk. simpl.
  replace (List.length (rest s2)) with (List.length (rest s1))
    by (now destruct Ha as (_ & -> & _)).
  generalize (List.length (rest s1)) as fuel. intros fuel.
  revert s1 s2 Ha. induction fuel as [|fuel IH]; intros s1 s2 Ha;
    cbn [rounds]; (apply H; [exact Ha|]); intros t1 t2 Ht.
  - now apply Hk.
  - replace (pos s2) with (pos s1) by (now destruct Ha).
    replace (pos t2) with (pos t1) by (now destruct Ht).
    destruct (Nat.ltb (pos s1) (pos t1)); [|now apply Hk].
    apply oagree_orelse; [now apply IH | now apply Hk].
Qed.

Lemma sim_grp n r q : sim U G r q -> sim U G (Grp n r) (Grp n q).
Proof.
  intros H s1 s2 k1 k2 Ha Hk. simpl.
  apply H; [exact Ha|]. intros t1 t2 Ht. apply Hk.
  replace (pos s2) with (pos s1) by (now destruct Ha).
  replace (pos t2) with (pos t1) by (now destruct Ht).
  now apply agree_set_mark.
Qed.

(** A group that is not observed can be renumbered or dropped. *)
Lemma sim_grp_l n r q : G n = false -> sim U G r q -> sim U G (Grp n r) q.
Proof.
  intros Hn H s1 s2 k1 k2 Ha Hk. simpl.
  apply H; [exact Ha|]. intros t1 t2 Ht. apply Hk.
  now apply agree_set_mark_l.
Qed.

Lemma sim_grp_r n r q : G n = false -> sim U G r q -> sim U G r (Grp n q).
Proof.
  intros Hn H s1 s2 k1 k2 Ha Hk. simpl.
  apply H; [exact Ha|]. intros t1 t2 Ht. apply Hk.
  now apply agree_set_mark_r.
Qed.

(** Every digit is a word character. *)
Lemma digit_is_word c : re_digit U c = true -> re_word U c = true.
Proof.
  unfold re_digit, re_word, isalnum. intros ->.
  now rewrite orb_true_r.
Qed.

(** Hence [\d|\w] and [\w] find the same matches, in the same order up to
    repetitions of a failed attempt. *)
Lemma sim_digit_or_word : sim U G (Alt Digit Word) Word.
Proof.
  intros s1 s2 k1 k2 Ha Hk. simpl.
  pose proof (@step_if_sim (re_word U) s1 s2 k1 k2 Ha Hk) as Hw.
  unfold step_if in *.
  assert (Hr : rest s2 = rest s1) by (now destruct Ha as (_ & -> & _)).
  rewrite Hr in *.
  destruct (rest s1) as [|c t]; [exact I|].
  destruct (re_digit U c) eqn:Hd; [|exact Hw].
  rewrite (digit_is_word _ Hd) in *.
  destruct (k1 (advance s1 t)); [exact Hw|exact Hw].
Qed.

Lemma match_at_sim r q p t :
  sim U G r q ->
  match match_at U r p t, match_at U q p t with
  | Some m1, Some m2 => magree G m1 m2
  | None, None => True
  | _, _ => False
  end.
Proof.
  intros H. unfold match_at.
  assert (Ha : agree G (MState p t []) (MState p t [])) by (repeat split).
  specialize (H _ _ Some Some Ha (fun t1 t2 Ht => Ht)).
  destruct (exec U r _ Some), (exec U q _ Some); simpl in *; try tauto.
  split; [reflexivity | exact H].
Qed.

Lemma finditer_from_sim r q :
  sim U G r q ->
  forall t p skip,
    Forall2 (magree G) (finditer_from U r p t skip) (finditer_from U q p t skip).
Proof.
  intros H. induction t as [|c t IH]; intros p skip; simpl.
  - destruct skip; [|constructor].
    pose proof (match_at_sim p [] H) as Hm.
    destruct (match_at U r p []), (match_at U q p []); try tauto;
      [|constructor].
    constructor; [exact Hm | constructor].
  - destruct skip as [|n]; [|apply IH].
    pose proof (match_at_sim p (c :: t) H) as Hm.
    destruct (match_at U r p (c :: t)) as [m1|],
             (match_at U q p (c :: t)) as [m2|]; try tauto; [|apply IH].
    constructor; [exact Hm|].
    replace (m_end m2) with (m_end m1); [apply IH|].
    unfold m_end. now destruct Hm as (_ & ? & _).
Qed.

(** The texts of an observed group coincide. *)
Lemma versions_of_sim r q body :
  G 1 = true -> sim U G r q ->
  versions_of U r body = versions_of U q body.
Proof.
  intros Hg H. unfold versions_of, finditer.
  pose proof (finditer_from_sim H body 0 0) as HF.
  induction HF as [|m1 m2 l1 l2 Hm _ IH]; simpl; [reflexivity|].
  f_equal; [|exact IH].
  unfold group. destruct Hm as (_ & _ & _ & Hm).
  now rewrite (Hm 1 Hg).
Qed.
End Simulation.


(** ** The pattern of the program *)

Section PatternFacts.
Variable U : ucd.

Lemma matches_alphabet r w :
  matches U r w ->
  w <> [] /\ Forall (fun c => may_consume U r c = true) w.
Proof.
  induction 1 as [c|c Hc|c Hc|r1 r2 w1 w2 _ [N1 F1] _ [N2 F2]
                  |r1 r2 w _ [N F]|r1 r2 w _ [N F]|r w _ [N F]
                  |r w1 w2 _ [N1 F1] _ [N2 F2]|n r w _ [N F]]; simpl.
  - split; [discriminate|]. constructor; [apply N.eqb_refl | constructor].
  - split; [discriminate|]. now repeat constructor.
  - split; [discriminate|]. now repeat constructor.
  - split; [now destruct w1|].
    apply Forall_app. split; eapply Forall_impl; eauto; simpl;
      intros a ->; auto using orb_true_r.
  - split; [exact N|]. eapply Forall_impl; eauto; simpl. now intros a ->.
  - split; [exact N|]. eapply Forall_impl; eauto; simpl.
    intros a ->. apply orb_true_r.
  - now split.
  - split; [now destruct w1|]. apply Forall_app. now split.
  - now split.
Qed.

(** No token contains [>]. *)
Lemma token_no_gt g : may_consume U (token_regex g) (chr ">") = false.
Proof. reflexivity. Qed.

Lemma token_chars g w :
  matches U (token_regex g) w ->
  exists c w', w = c :: w' /\ Forall (fun x => x <> chr ">") w.
Proof.
  intros H. apply matches_alphabet in H. destruct H as [N F].
  destruct w as [|c w']; [congruence|]. exists c, w'. split; [reflexivity|].
  eapply Forall_impl; [|exact F]. cbv beta. intros a Ha ->.
  pose proof (token_no_gt g). congruence.
Qed.

(** A match of the token expression at position [p] of [t]. *)
Lemma match_at_token g p t m :
  match_at U (token_regex g) p t = Some m ->
  exists c w',
    t = (c :: w') ++ rest (m_final m)
    /\ m_start m = p
    /\ m_end m = p + S (List.length w')
    /\ Forall (fun x => x <> chr ">") (c :: w')
    /\ matches U (token_regex g) (c :: w').
Proof.
  unfold match_at. destruct (exec U _ _ Some) as [x|] eqn:E; [|discriminate].
  intros [= <-]. apply exec_Some_sound in E. destruct E as (w & Hm & Hr & Hp).
  destruct (token_chars Hm) as (c & w' & -> & HF).
  exists c, w'. simpl in *. auto.
Qed.

Lemma match_at_token_nil g p : match_at U (token_regex g) p [] = None.
Proof.
  destruct (match_at U (token_regex g) p []) as [m|] eqn:E; [|reflexivity].
  apply match_at_token in E. destruct E as (c & w' & E & _). discriminate.
Qed.

Lemma match_at_token_gt g p t :
  match_at U (token_regex g) p (chr ">" :: t) = None.
Proof.
  destruct (match_at U (token_regex g) p _) as [m|] eqn:E; [|reflexivity].
  apply match_at_token in E. destruct E as (c & w' & E & _ & _ & HF & _).
  injection E as <- _. now inversion HF.
Qed.

(** The pattern of the program matches at a [>] that a token follows;
    group 1 is that token. *)
Lemma match_at_pattern p c t :
  match_at U pattern p (c :: t) =
  if N.eqb (chr ">") c
  then option_map
         (fun m => RMatch p (set_mark 1 (S p) (m_end m) (m_final m)))
         (match_at U (token_regex 2) (S p) t)
  else None.
Proof.
  unfold match_at, pattern. cbn [exec]. unfold step_if. cbn [rest].
  destruct (N.eqb (chr ">") c); [|reflexivity].
  unfold advance. cbn [pos marks].
  pose proof (exec_map U (token_regex 2)
                (fun s => set_mark 1 (S p) (pos s) s)
                (MState (S p) t []) Some) as E.
  change (exec U (token_regex 2) (MState (S p) t [])
            (fun s => Some (set_mark 1 (S p) (pos s) s))
          = option_map (fun s => set_mark 1 (S p) (pos s) s)
              (exec U (token_regex 2) (MState (S p) t []) Some)) in E.
  rewrite E.
  now destruct (exec U (token_regex 2) _ Some).
Qed.

Lemma match_at_pattern_nil p : match_at U pattern p [] = None.
Proof. reflexivity. Qed.

(** Group numbers play no part in where a token ends. *)
Lemma sim_token_regex G g g' :
  (forall n, G n = false) ->
  sim U G (token_regex g) (token_regex g').
Proof.
  intros HG. unfold token_regex.
  apply sim_cat; [apply sim_plus, sim_digit|].
  apply sim_plus, sim_grp_l, sim_grp_r; auto.
  apply sim_cat.
  - apply sim_grp_l, sim_grp_r; auto.
    apply sim_alt; apply sim_lit.
  - apply sim_plus, sim_grp_l, sim_grp_r; auto.
    apply sim_alt; [apply sim_digit | apply sim_word].
Qed.

Lemma match_at_pattern_token p c t :
  match match_at U version_token (S p) t with
  | Some m' =>
      exists m, match_at U pattern p (c :: t)
                = (if N.eqb (chr ">") c then Some m else None)
                /\ m_end m = m_end m'
                /\ lookup_mark 1 (marks (m_final m)) = Some (S p, m_end m')
  | None => match_at U pattern p (c :: t) = None
  end.
Proof.
  rewrite match_at_pattern.
  pose proof (@match_at_sim U (fun _ => false) (token_regex 2) version_token
                (S p) t (sim_token_regex 2 1 (fun _ => eq_refl))) as Hs.
  destruct (match_at U (token_regex 2) (S p) t) as [m2|],
           (match_at U version_token (S p) t) as [m1|]; try tauto.
  - destruct Hs as (_ & Hp & _).
    eexists. split; [reflexivity|]. unfold m_end in *. simpl.
    rewrite Hp. auto.
  - now destruct (N.eqb (chr ">") c).
Qed.
End PatternFacts.

(** ** UTF-8 *)

Ltac nlia := zify; Z.to_euclidean_division_equations; lia.

Ltac split_bools :=
  repeat match goal with
  | H : _ && _ = true |- _ => apply andb_prop in H; destruct H
  | H : negb _ = true |- _ => apply negb_true_iff in H
  | H : _ && _ = false |- _ => apply andb_false_iff in H
  | H : (_ <=? _)%N = true |- _ => apply N.leb_le in H
  | H : (_ <=? _)%N = false |- _ => apply N.leb_gt in H
  | H : (_ <? _)%N = true |- _ => apply N.ltb_lt in H
  | H : (_ <? _)%N = false |- _ => apply N.ltb_ge in H
  end.

Lemma option_map_Some A B (f : A -> B) o y :
  option_map f o = Some y -> exists x, o = Some x /\ y = f x.
Proof. destruct o; [intros [= <-]; eauto | discriminate]. Qed.

Lemma utf8_decode_step b0 t0 s :
  utf8_decode (b0 :: t0) = Some s ->
  exists c rest s',
    s = c :: s' /\ is_scalar c = true
    /\ b0 :: t0 = utf8_encode1 c ++ rest
    /\ utf8_decode rest = Some s'
    /\ List.length rest < List.length (b0 :: t0).
Proof.
  cbn [utf8_decode].
  destruct (b0 <? 128)%N eqn:E1.
  { intros H. apply option_map_Some in H. destruct H as (s' & H & ->).
    exists b0, t0, s'. unfold is_scalar, utf8_encode1. rewrite E1.
    split_bools. repeat split; auto.
    - apply andb_true_intro. split; [apply N.leb_le; lia|].
      apply negb_true_iff, andb_false_iff. left. apply N.leb_gt. lia. }
  destruct (b0 <? 192)%N eqn:E2; [discriminate|].
  destruct (b0 <? 224)%N eqn:E3.
  { destruct t0 as [|b1 t1]; [discriminate|].
    destruct (is_cont b1 && _) eqn:C; [|discriminate].
    intros H. apply option_map_Some in H. destruct H as (s' & H & ->).
    unfold is_cont in C. split_bools.
    eexists _, t1, s'. split; [reflexivity|].
    unfold is_scalar, utf8_encode1.
    repeat split; auto.
    - apply andb_true_intro. split; [apply N.leb_le; lia|].
      apply negb_true_iff, andb_false_iff. left. apply N.leb_gt. lia.
    - replace (_ <? 128)%N with false by (symmetry; apply N.ltb_ge; lia).
      replace (_ <? 2048)%N with true by (symmetry; apply N.ltb_lt; lia).
      cbn [app]. f_equal; [nlia|]. f_equal. nlia.
    - simpl. lia. }
  destruct (b0 <? 240)%N eqn:E4.
  { destruct t0 as [|b1 [|b2 t2]]; try discriminate.
    destruct (is_cont b1 && _ && _ && _) eqn:C; [|discriminate].
    intros H. apply option_map_Some in H. destruct H as (s' & H & ->).
    unfold is_cont in C. split_bools.
    eexists _, t2, s'. split; [reflexivity|].
    unfold is_scalar, utf8_encode1.
    repeat split; auto.
    - apply andb_true_intro. split; [apply N.leb_le; lia|].
      apply negb_true_iff, andb_false_iff.
      match goal with H : _ \/ _ |- _ => destruct H; [left|right] end;
        split_bools; apply N.leb_gt; lia.
    - replace (_ <? 128)%N with false by (symmetry; apply N.ltb_ge; lia).
      replace (_ <? 2048)%N with false by (symmetry; apply N.ltb_ge; lia).
      replace (_ <? 65536)%N with true by (symmetry; apply N.ltb_lt; lia).
      cbn [app]. f_equal; [nlia|]. f_equal; [nlia|]. f_equal. nlia.
    - simpl. lia. }
  destruct (b0 <? 248)%N eqn:E5; [|discriminate].
  destruct t0 as [|b1 [|b2 [|b3 t3]]]; try discriminate.
  destruct (is_cont b1 && _ && _ && _ && _) eqn:C; [|discriminate].
  intros H. apply option_map_Some in H. destruct H as (s' & H & ->).
  unfold is_cont in C. split_bools.
  eexists _, t3, s'. split; [reflexivity|].
  unfold is_scalar, utf8_encode1.
  repeat split; auto.
  - apply andb_true_intro. split; [apply N.leb_le; lia|].
    apply negb_true_iff, andb_false_iff. right. apply N.leb_gt. lia.
  - replace (_ <? 128)%N with false by (symmetry; apply N.ltb_ge; lia).
    replace (_ <? 2048)%N with false by (symmetry; apply N.ltb_ge; lia).
    replace (_ <? 65536)%N with false by (symmetry; apply N.ltb_ge; lia).
    cbn [app]. f_equal; [nlia|]. f_equal; [nlia|]. f_equal; [nlia|].
    f_equal. nlia.
  - simpl. lia.
Qed.

Lemma utf8_decode_sound : forall bs s,
  utf8_decode bs = Some s ->
  forallb is_scalar s = true /\ bs = utf8_encode s.
Proof.
  intros bs. induction bs as [bs IH] using (induction_ltof1 _ (@List.length N)).
  unfold ltof in IH. intros s H.
  destruct bs as [|b0 t0].
  - injection H as <-. now split.
  - apply utf8_decode_step in H.
    destruct H as (c & rest & s' & -> & Hc & E & Hd & Hl).
    destruct (IH rest Hl s' Hd) as [Hs ->].
    split; [simpl; now rewrite Hc | exact E].
Qed.

Ltac decide_ltb :=
  repeat match goal with
  | |- context [(?a <? ?b)%N] =>
      first [ replace (a <? b)%N with true by (symmetry; apply N.ltb_lt; nlia)
            | replace (a <? b)%N with false by (symmetry; apply N.ltb_ge; nlia) ]
  | |- context [(?a <=? ?b)%N] =>
      first [ replace (a <=? b)%N with true by (symmetry; apply N.leb_le; nlia)
            | replace (a <=? b)%N with false by (symmetry; apply N.leb_gt; nlia) ]
  end.

Lemma utf8_decode_encode1 c rest :
  is_scalar c = true ->
  utf8_decode (utf8_encode1 c ++ rest) = option_map (cons c) (utf8_decode rest).
Proof.
  unfold is_scalar, utf8_encode1. intros H. split_bools.
  destruct (c <? 128)%N eqn:E1.
  { cbn [app utf8_decode]. now rewrite E1. }
  destruct (c <? 2048)%N eqn:E2.
  { split_bools. cbn [app utf8_decode]. unfold is_cont. decide_ltb.
    cbn [andb]. f_equal. f_equal. nlia. }
  destruct (c <? 65536)%N eqn:E3.
  { split_bools. cbn [app utf8_decode]. unfold is_cont. decide_ltb.
    cbn [andb].
    replace ((224 + c / 4096 - 224) * 4096 + (128 + (c / 64) mod 64 - 128) * 64
             + (128 + c mod 64 - 128))%N with c by nlia.
    match goal with H : _ \/ _ |- _ => destruct H; split_bools end;
      decide_ltb; reflexivity. }
  split_bools. cbn [app utf8_decode]. unfold is_cont. decide_ltb.
  cbn [andb]. f_equal. f_equal. nlia.
Qed.

Lemma utf8_decode_encode s :
  forallb is_scalar s = true -> utf8_decode (utf8_encode s) = Some s.
Proof.
  induction s as [|c s IH]; [reflexivity|].
  simpl. intros H. apply andb_prop in H. destruct H as [Hc Hs].
  now rewrite utf8_decode_encode1, IH.
Qed.

(** The decoder succeeds exactly on valid UTF-8. *)
Lemma decode_valid raw : valid_utf8 raw <-> exists s, decode raw = Some s.
Proof.
  unfold valid_utf8, decode. split.
  - intros (s & Hs & ->). exists s. now apply utf8_decode_encode.
  - intros (s & H). exists s. now apply utf8_decode_sound.
Qed.

(** ** The two scans collect the same tokens *)

Section Scans.
Variable U : ucd.

Lemma gt_before_snoc pre c : gt_before (pre ++ [c]) = N.eqb c (chr ">").
Proof. unfold gt_before. now rewrite rev_app_distr. Qed.

Lemma preceded_by_at body pre t m :
  body = pre ++ t -> m_start m = List.length pre ->
  preceded_by (chr ">") body m = gt_before pre.
Proof.
  intros -> Hs. unfold preceded_by. rewrite Hs.
  destruct pre as [|x pre0 _] using rev_ind; [reflexivity|].
  rewrite gt_before_snoc, length_app, Nat.add_1_r, <- app_assoc.
  rewrite nth_error_app2, Nat.sub_diag by lia. reflexivity.
Qed.

(** One step of the scan of the program's pattern, when nothing is skipped. *)
Lemma scan_pattern_step body pre c t :
  body = pre ++ c :: t ->
  exists a',
    List.map (fun m => match group body m 1 with Some x => x | None => [] end)
             (finditer_from U pattern (List.length pre) (c :: t) 0)
    = pending U body (pre ++ [c]) t
      ++ List.map (fun m => match group body m 1 with Some x => x | None => [] end)
           (finditer_from U pattern (S (List.length pre)) t a')
    /\ (forall b', b' = 0 -> N.eqb c (chr ">") = true -> scan_inv U (pre ++ [c]) t a' b')
    /\ (N.eqb c (chr ">") = false -> a' = 0).
Proof.
  intros Hb. cbn [finditer_from].
  unfold pending, scan_inv. rewrite gt_before_snoc, length_app, Nat.add_1_r.
  pose proof (match_at_pattern_token U (List.length pre) c t) as HA.
  rewrite (N.eqb_sym (chr ">") c) in HA.
  destruct (match_at U version_token (S (List.length pre)) t) as [m'|].
  - destruct HA as (m & Em & He & Hl). rewrite Em.
    destruct (N.eqb c (chr ">")) eqn:Ec.
    + exists (m_end m - List.length pre - 1). split; [|split].
      * cbn [List.map app]. f_equal. unfold group. now rewrite Hl.
      * intros b' -> _. split; [reflexivity|]. rewrite He. lia.
      * discriminate.
    + exists 0. split; [reflexivity|]. split; [discriminate|reflexivity].
  - rewrite HA. exists 0. split; [now destruct (N.eqb c (chr ">"))|].
    split; [|reflexivity]. intros b' -> Hc. rewrite Hc. now split.
Qed.


Lemma pending_not_gt body pre c t :
  N.eqb c (chr ">") = false -> pending U body (pre ++ [c]) t = [].
Proof. intros H. unfold pending. now rewrite gt_before_snoc, H. Qed.

Lemma scan_inv_not_gt pre c t a b :
  N.eqb c (chr ">") = false ->
  (a = b \/ a = 0) -> Forall (fun x => x <> chr ">") (firstn b t) ->
  scan_inv U (pre ++ [c]) t a b.
Proof. intros H. unfold scan_inv. now rewrite gt_before_snoc, H. Qed.

Lemma neq_gt c : c <> chr ">" -> N.eqb c (chr ">") = false.
Proof. apply N.eqb_neq. Qed.

Lemma scan_sim body : forall t pre a b,
  body = pre ++ t -> scan_inv U pre t a b ->
  List.map (fun m => slice body (m_start m) (m_end m))
    (List.filter (preceded_by (chr ">") body)
       (finditer_from U version_token (List.length pre) t b))
  = pending U body pre t
    ++ List.map (fun m => match group body m 1 with Some x => x | None => [] end)
         (finditer_from U pattern (List.length pre) t a).
Proof.
  unfold version_token.
  induction t as [|c t IH]; intros pre a b Hb Hinv.
  - unfold pending, scan_inv, version_token in *.
    cbn [finditer_from]. rewrite match_at_token_nil, match_at_pattern_nil in *.
    now destruct (gt_before pre), a, b.
  - assert (Hb' : body = (pre ++ [c]) ++ t) by (now rewrite <- app_assoc).
    assert (Hl : List.length (pre ++ [c]) = S (List.length pre))
      by (rewrite length_app; simpl; lia).
    specialize (IH (pre ++ [c])). rewrite Hl in IH.
    destruct (@scan_pattern_step body pre c t Hb) as (a0 & EA & Hgt & Hngt).
    cbn [finditer_from] in EA.
    unfold scan_inv in Hinv. unfold pending at 1. unfold version_token in *.
    destruct (gt_before pre) eqn:Hg.
    + destruct Hinv as [-> ->].
      cbn [finditer_from].
      destruct (match_at U (token_regex 1) (List.length pre) (c :: t))
        as [m|] eqn:EM.
      * destruct (@match_at_token U _ _ _ _ EM)
          as (c0 & w' & Et & Hs & He & HF & _).
        injection Et as <- Et. apply Forall_cons_iff in HF. destruct HF as [Hc HF'].
        apply neq_gt in Hc.
        replace (m_end m - List.length pre - 1) with (List.length w') by lia.
        replace (m_end m - List.length pre) with (S (List.length w')) by lia.
        cbn [finditer_from filter].
        rewrite (@preceded_by_at _ _ _ m Hb Hs), Hg. cbn [List.map app].
        rewrite Hs. f_equal.
        rewrite (IH (List.length w') (List.length w') Hb');
          [now rewrite pending_not_gt|].
        apply scan_inv_not_gt; auto.
        rewrite Et, firstn_app, Nat.sub_diag, firstn_all. cbn [firstn].
        now rewrite app_nil_r.
      * cbn [finditer_from]. rewrite EA. apply (IH a0 0 Hb').
        destruct (N.eqb c (chr ">")) eqn:Ec; [now apply Hgt|].
        apply scan_inv_not_gt; auto.
    + destruct Hinv as [Hab HF]. cbn [app].
      destruct b as [|b'].
      * assert (a = 0) by (now destruct Hab). subst a.
        cbn [finditer_from]. rewrite EA.
        destruct (match_at U (token_regex 1) (List.length pre) (c :: t))
          as [m|] eqn:EM.
        -- destruct (@match_at_token U _ _ _ _ EM)
             as (c0 & w' & Et & Hs & He & HF0 & _).
           injection Et as <- Et. apply Forall_cons_iff in HF0. destruct HF0 as [Hc HF'].
           apply neq_gt in Hc.
           replace (m_end m - List.length pre - 1) with (List.length w') by lia.
           cbn [filter]. rewrite (@preceded_by_at _ _ _ m Hb Hs), Hg.
           apply (IH a0 (List.length w') Hb').
           apply scan_inv_not_gt; auto.
           rewrite Et, firstn_app, Nat.sub_diag, firstn_all. cbn [firstn].
           now rewrite app_nil_r.
        -- apply (IH a0 0 Hb').
           destruct (N.eqb c (chr ">")) eqn:Ec; [now apply Hgt|].
           apply scan_inv_not_gt; auto.
      * cbn [firstn] in HF. apply Forall_cons_iff in HF. destruct HF as [Hc HF'].
        apply neq_gt in Hc. cbn [finditer_from].
        destruct Hab as [->| ->].
        -- rewrite (IH b' b' Hb'); [now rewrite pending_not_gt|].
           apply scan_inv_not_gt; auto.
        -- rewrite EA, (Hngt Hc). apply (IH 0 b' Hb').
           apply scan_inv_not_gt; auto.
Qed.

Lemma versions_of_tokens_after_gt body :
  versions_of U pattern body = tokens_after_gt U body.
Proof.
  unfold versions_of, tokens_after_gt, finditer. symmetry.
  apply (@scan_sim body body [] 0 0 eq_refl).
  unfold scan_inv. simpl. auto.
Qed.
End Scans.

(** ** Where the matches of a scan are *)

Section Located.
Variable U : ucd.

Lemma match_at_sound r p t m :
  match_at U r p t = Some m ->
  exists w, matches U r w /\ t = w ++ rest (m_final m)
            /\ m_start m = p /\ m_end m = p + List.length w.
Proof.
  unfold match_at. destruct (exec U r _ Some) as [x|] eqn:E; [|discriminate].
  intros [= <-]. apply exec_Some_sound in E. destruct E as (w & Hm & Hr & Hp).
  exists w. simpl in *. auto.
Qed.

(** Every match reported by a scan was found at some position of the
    subject. *)
Lemma finditer_from_In r m : forall t pre skip,
  In m (finditer_from U r (List.length pre) t skip) ->
  exists pre' t',
    pre ++ t = pre' ++ t' /\ match_at U r (List.length pre') t' = Some m.
Proof.
  induction t as [|c t IH]; intros pre skip; cbn [finditer_from].
  - destruct skip; [|intros []].
    destruct (match_at U r (List.length pre) []) as [m'|] eqn:E; [|intros []].
    intros [<-|[]]. now exists pre, [].
  - assert (Hstep : forall n,
               In m (finditer_from U r (S (List.length pre)) t n) ->
               exists pre' t', pre ++ c :: t = pre' ++ t'
                 /\ match_at U r (List.length pre') t' = Some m).
    { intros n H. specialize (IH (pre ++ [c]) n).
      rewrite length_app, Nat.add_1_r, <- app_assoc in IH. now apply IH. }
    destruct skip as [|n]; [|apply Hstep].
    destruct (match_at U r (List.length pre) (c :: t)) as [m'|] eqn:E;
      [|apply Hstep].
    intros [<-|H]; [now exists pre, (c :: t) | now apply Hstep in H].
Qed.

Lemma slice_app (pre w post : str) :
  slice (pre ++ w ++ post) (List.length pre) (List.length pre + List.length w)
  = w.
Proof.
  unfold slice. rewrite skipn_app, skipn_all, Nat.sub_diag. cbn [skipn app].
  replace (List.length pre + List.length w - List.length pre)
    with (List.length w) by lia.
  now rewrite firstn_app, Nat.sub_diag, firstn_all, app_nil_r.
Qed.

(** Group 1 takes part in every match of the program's pattern. *)
Lemma group1_participates body m :
  In m (finditer U pattern body) -> exists t, group body m 1 = Some t.
Proof.
  intros H. apply (finditer_from_In pattern m body [] 0) in H.
  destruct H as (pre' & t' & _ & H).
  destruct t' as [|c t]; [discriminate|].
  rewrite match_at_pattern in H.
  destruct (N.eqb (chr ">") c); [|discriminate].
  destruct (match_at U (token_regex 2) _ t) as [m2|]; [|discriminate].
  injection H as <-. unfold group. simpl. eauto.
Qed.

(** The tokens the specification describes stand right after a [>] of the
    body and belong to the language of the token expression. *)
Lemma tokens_after_gt_located body tok :
  In tok (tokens_after_gt U body) ->
  exists pre post,
    body = pre ++ chr ">" :: tok ++ post /\ matches U version_token tok.
Proof.
  unfold tokens_after_gt, finditer. intros H.
  apply in_map_iff in H. destruct H as (m & <- & H).
  apply filter_In in H. destruct H as [H Hgt].
  apply (finditer_from_In version_token m body [] 0) in H.
  destruct H as (pre' & t' & Hb & H). cbn [app] in Hb.
  apply match_at_sound in H. destruct H as (w & Hm & Ht & Hs & He).
  pose proof (@preceded_by_at body pre' t' m Hb Hs) as Hp.
  rewrite Hgt in Hp.
  destruct pre' as [|x pre0 _] using rev_ind; [discriminate|].
  rewrite gt_before_snoc in Hp. symmetry in Hp. apply N.eqb_eq in Hp.
  subst x. exists pre0, (rest (m_final m)).
  rewrite Hs, He, Hb, Ht. rewrite slice_app.
  split; [now rewrite <- app_assoc | exact Hm].
Qed.
End Located.

(** ** The simpler pattern *)

Lemma sim_simple_token U G g :
  G (S (S g)) = false ->
  sim U G (token_regex g) (simple_token_regex g).
Proof.
  intros Hg. unfold token_regex, simple_token_regex.
  apply sim_cat; [apply sim_plus, sim_digit|].
  apply sim_plus, sim_grp, sim_cat.
  - apply sim_grp, sim_alt; apply sim_lit.
  - apply sim_plus, sim_grp_l; [exact Hg | apply sim_digit_or_word].
Qed.

Lemma sim_simple_pattern U : sim U (Nat.eqb 1) pattern simple_pattern.
Proof.
  unfold pattern, simple_pattern.
  apply sim_cat; [apply sim_lit|].
  apply sim_grp, sim_simple_token. reflexivity.
Qed.

Lemma strip_no_leading c s :
  hd_error s <> Some c -> strip c s = rstrip c s.
Proof.
  intros H. unfold strip. f_equal.
  destruct s as [|x s']; [reflexivity|]. simpl.
  destruct (N.eqb_spec x c) as [->|_]; [now elim H | reflexivity].
Qed.

Lemma outcome_served U url raw body :
  decode raw = Some body ->
  outcome U url (Served raw) =
  match sort_reverse (versions_of U pattern body) with
  | [] => Raise IndexError
  | v :: _ => Return [template_url url v (lit "tar.gz");
                      template_url url v (lit "zip")]
  end.
Proof. intros H. unfold outcome. now rewrite H. Qed.

(** ** The opener *)

Section OpenerFacts.
Variable Net : Type.
Variable http : Net -> str -> answer * Net.










End OpenerFacts.

(** * The claims *)

(** C1.  When the body yields at least one token, the version the returned
    URLs are built from is a collected token that no collected token exceeds
    in the lexicographic order of strings; if the tokens are exactly
    3.10.0 and 3.9.0, it is 3.9.0. *)
Theorem latest_is_lexicographic_maximum U site url raw body :
  site (strip (chr "/") url) = Served raw ->
  decode raw = Some body ->
  versions_of U pattern body <> [] ->
  exists latest,
    run_on site (bin_list U url)
    = Return [template_url (strip (chr "/") url) latest (lit "tar.gz");
              template_url (strip (chr "/") url) latest (lit "zip")]
    /\ In latest (versions_of U pattern body)
    /\ (forall t, In t (versions_of U pattern body) -> str_leb t latest = true)
    /\ ((forall t, In t (versions_of U pattern body)
                   <-> t = lit "3.10.0" \/ t = lit "3.9.0")
        -> latest = lit "3.9.0").
Proof.
  intros Hsite Hdec Hne.
  rewrite run_on_bin_list, Hsite, (outcome_served _ _ _ Hdec).
  destruct (sort_reverse (versions_of U pattern body)) as [|v r] eqn:E.
  - now apply sort_reverse_nil in E.
  - destruct (sort_reverse_head _ E) as [Hin Hmax].
    exists v. repeat split; auto.
    intros Hex. destruct (proj1 (Hex v) Hin) as [-> | ->]; [|reflexivity].
    assert (H : In (lit "3.9.0") (versions_of U pattern body))
      by (apply Hex; now right).
    apply Hmax in H. discriminate H.
Qed.

Lemma latest_is_lexicographic_maximum_witness :
  exists latest,
    run_on (serving listing_3_10) (bin_list ascii_ucd default_url)
    = Return [template_url (strip (chr "/") default_url) latest (lit "tar.gz");
              template_url (strip (chr "/") default_url) latest (lit "zip")]
    /\ In latest (versions_of ascii_ucd pattern
                    (lit page_3_10))
    /\ (forall t, In t (versions_of ascii_ucd pattern
                    (lit page_3_10))
                  -> str_leb t latest = true)
    /\ ((forall t, In t (versions_of ascii_ucd pattern
                    (lit page_3_10))
                   <-> t = lit "3.10.0" \/ t = lit "3.9.0")
        -> latest = lit "3.9.0").
Proof.
  apply (@latest_is_lexicographic_maximum ascii_ucd (serving listing_3_10)
           default_url listing_3_10).
  - reflexivity.
  - vm_compute. reflexivity.
  - vm_compute. discriminate.
Defined.

(** C3, as amended.  For a listing whose tokens are exactly 3.8.5, 3.8.4,
    3.8.1 and 3.6.3, the call returns
    b/3.8.5/binaries/apache-maven-3.8.5-bin.tar.gz and the .zip sibling,
    where b is the base URL with the slashes at both of its ends removed. *)
Theorem maven_3_8_5_listing U site url raw body :
  site (strip (chr "/") url) = Served raw ->
  decode raw = Some body ->
  (forall t, In t (versions_of U pattern body)
             <-> In t [lit "3.8.5"; lit "3.8.4"; lit "3.8.1"; lit "3.6.3"]) ->
  run_on site (bin_list U url)
  = Return
      [strip (chr "/") url
         ++ lit "/3.8.5/binaries/apache-maven-3.8.5-bin.tar.gz";
       strip (chr "/") url
         ++ lit "/3.8.5/binaries/apache-maven-3.8.5-bin.zip"].
Proof.
  intros Hsite Hdec Hex.
  rewrite run_on_bin_list, Hsite, (outcome_served _ _ _ Hdec).
  destruct (sort_reverse (versions_of U pattern body)) as [|v r] eqn:E.
  - apply sort_reverse_nil in E.
    assert (H : In (lit "3.8.5") (versions_of U pattern body))
      by (apply Hex; now left).
    rewrite E in H. destruct H.
  - destruct (sort_reverse_head _ E) as [Hin Hmax].
    assert (H : In (lit "3.8.5") (versions_of U pattern body))
      by (apply Hex; now left).
    apply Hmax in H.
    apply Hex in Hin. simpl in Hin.
    destruct Hin as [Hv|[Hv|[Hv|[Hv|Hv]]]]; [subst v ..|destruct Hv].
    + reflexivity.
    + discriminate H.
    + discriminate H.
    + discriminate H.
Qed.

Lemma maven_3_8_5_listing_witness :
  run_on (serving listing_3_8) (bin_list ascii_ucd default_url)
  = Return
      [strip (chr "/") default_url
         ++ lit "/3.8.5/binaries/apache-maven-3.8.5-bin.tar.gz";
       strip (chr "/") default_url
         ++ lit "/3.8.5/binaries/apache-maven-3.8.5-bin.zip"].
Proof.
  apply (@maven_3_8_5_listing ascii_ucd (serving listing_3_8) default_url
           listing_3_8 (lit page_3_8)).
  - reflexivity.
  - vm_compute. reflexivity.
  - intros t. vm_compute. tauto.
Defined.

(** C3 as worded takes b to be the base URL without its trailing slashes
    only.  That fails for a base URL that begins with a slash: the URLs are
    built from the text without the leading slash as well. *)
Lemma trailing_only_base_refuted :
  ~ (forall U site url raw body,
        (forall u, site u = Served raw) ->
        decode raw = Some body ->
        (forall t, In t (versions_of U pattern body)
                   <-> In t [lit "3.8.5"; lit "3.8.4"; lit "3.8.1";
                             lit "3.6.3"]) ->
        run_on site (bin_list U url)
        = Return
            [rstrip (chr "/") url
               ++ lit "/3.8.5/binaries/apache-maven-3.8.5-bin.tar.gz";
             rstrip (chr "/") url
               ++ lit "/3.8.5/binaries/apache-maven-3.8.5-bin.zip"]).
Proof.
  intros H.
  specialize (H ascii_ucd (serving listing_3_8) slash_url listing_3_8
                (lit page_3_8) (fun _ => eq_refl)).
  assert (Hdec : decode listing_3_8 = Some (lit page_3_8))
    by (vm_compute; reflexivity).
  assert (Hex : forall t,
             In t (versions_of ascii_ucd pattern (lit page_3_8))
             <-> In t [lit "3.8.5"; lit "3.8.4"; lit "3.8.1"; lit "3.6.3"])
    by (intros t; vm_compute; tauto).
  specialize (H Hdec Hex). vm_compute in H. discriminate H.
Qed.

(** C4.  A successful call returns exactly two URLs, the tar.gz one first
    and the zip one second.  Both are instances of the template
    base/version/binaries/apache-maven-version-bin.ext for the stripped base
    URL and one and the same collected version, so they share the directory
    and the file name up to the suffix after -bin. *)
Theorem returns_tar_gz_then_zip U site url l :
  run_on site (bin_list U url) = Return l ->
  exists version,
    let base := strip (chr "/") url in
    let dir := base ++ lit "/" ++ version ++ lit "/binaries" in
    l = [template_url base version (lit "tar.gz");
         template_url base version (lit "zip")]
    /\ l = [dir ++ lit "/apache-maven-" ++ version ++ lit "-bin.tar.gz";
            dir ++ lit "/apache-maven-" ++ version ++ lit "-bin.zip"]
    /\ List.length l = 2.
Proof.
  rewrite run_on_bin_list. unfold outcome.
  destruct (site (strip (chr "/") url)) as [|raw]; [discriminate|].
  destruct (decode raw) as [body|]; [|discriminate].
  destruct (sort_reverse (versions_of U pattern body)) as [|v r];
    [discriminate|].
  intros [= <-]. exists v. cbv zeta.
  now rewrite template_tar, template_zip.
Qed.

Lemma returns_tar_gz_then_zip_witness :
  exists version,
    let base := strip (chr "/") default_url in
    let dir := base ++ lit "/" ++ version ++ lit "/binaries" in
    [lit "https://archive.apache.org/dist/maven/maven-3/3.8.5/binaries/apache-maven-3.8.5-bin.tar.gz";
     lit "https://archive.apache.org/dist/maven/maven-3/3.8.5/binaries/apache-maven-3.8.5-bin.zip"]
    = [template_url base version (lit "tar.gz");
       template_url base version (lit "zip")]
    /\ [lit "https://archive.apache.org/dist/maven/maven-3/3.8.5/binaries/apache-maven-3.8.5-bin.tar.gz";
        lit "https://archive.apache.org/dist/maven/maven-3/3.8.5/binaries/apache-maven-3.8.5-bin.zip"]
       = [dir ++ lit "/apache-maven-" ++ version ++ lit "-bin.tar.gz";
          dir ++ lit "/apache-maven-" ++ version ++ lit "-bin.zip"]
    /\ List.length
         [lit "https://archive.apache.org/dist/maven/maven-3/3.8.5/binaries/apache-maven-3.8.5-bin.tar.gz";
          lit "https://archive.apache.org/dist/maven/maven-3/3.8.5/binaries/apache-maven-3.8.5-bin.zip"]
       = 2.
Proof.
  apply (@returns_tar_gz_then_zip ascii_ucd (serving listing_3_8) default_url).
  vm_compute. reflexivity.
Defined.

(** C5.  A call either returns two URLs or raises; when the body yields no
    token, it raises the IndexError of [vers[0]], the "empty result" error of
    the specification, and returns nothing. *)
Theorem no_version_raises U site url :
  ((exists u1 u2, run_on site (bin_list U url) = Return [u1; u2])
   \/ (exists e, run_on site (bin_list U url) = Raise e))
  /\ (forall raw body,
        site (strip (chr "/") url) = Served raw ->
        decode raw = Some body ->
        versions_of U pattern body = [] ->
        run_on site (bin_list U url) = Raise IndexError).
Proof.
  rewrite run_on_bin_list. split.
  - unfold outcome.
    destruct (site (strip (chr "/") url)) as [|raw]; [now right; eexists|].
    destruct (decode raw) as [body|]; [|now right; eexists].
    destruct (sort_reverse (versions_of U pattern body)) as [|v r];
      [now right; eexists|].
    left. now do 2 eexists.
  - intros raw body Hsite Hdec Hnil.
    now rewrite Hsite, (outcome_served _ _ _ Hdec), Hnil.
Qed.

Lemma no_version_raises_witness :
  run_on (serving listing_empty) (bin_list ascii_ucd default_url)
  = Raise IndexError.
Proof.
  apply (proj2 (no_version_raises ascii_ucd (serving listing_empty) default_url)
           listing_empty
           (lit page_empty)).
  - reflexivity.
  - vm_compute. reflexivity.
  - vm_compute. reflexivity.
Defined.

(** C6.  Against any network, a base URL followed by one or more slashes
    gives the same run (the same request, hence the same body, and the same
    outcome) as the base URL without them. *)
Theorem trailing_slashes_ignored U W (serve : W -> str -> response * W) w u n :
  run serve (bin_list U (u ++ repeat (chr "/") (S n))) w
  = run serve (bin_list U u) w.
Proof. now rewrite !run_bin_list, strip_app_repeat. Qed.

(** C7.  A body that is not valid UTF-8 makes the call raise
    UnicodeDecodeError; nothing is returned. *)
Theorem invalid_utf8_raises U site url raw :
  site (strip (chr "/") url) = Served raw ->
  ~ valid_utf8 raw ->
  run_on site (bin_list U url) = Raise UnicodeDecodeError.
Proof.
  intros Hsite Hbad. rewrite run_on_bin_list, Hsite. unfold outcome.
  destruct (decode raw) as [body|] eqn:E; [|reflexivity].
  exfalso. apply Hbad, decode_valid. now exists body.
Qed.

Lemma invalid_utf8_raises_witness :
  run_on (serving listing_latin1) (bin_list ascii_ucd default_url)
  = Raise UnicodeDecodeError.
Proof.
  apply (@invalid_utf8_raises ascii_ucd (serving listing_latin1) default_url
           listing_latin1).
  - reflexivity.
  - intros H. apply decode_valid in H. destruct H as [s H].
    vm_compute in H. discriminate H.
Defined.




(** C9.  The base URL is stripped of slashes at both ends: the request goes
    to, and the URLs are built from, a text that neither begins nor ends
    with a slash and from which the given URL differs by slashes in front
    and behind only.  In particular a URL and the same URL behind one or
    more leading slashes give the same run. *)
Theorem leading_slashes_stripped U W (serve : W -> str -> response * W) w u n :
  let url := repeat (chr "/") (S n) ++ u in
  let base := strip (chr "/") url in
  run serve (bin_list U url) w = run serve (bin_list U u) w
  /\ snd (run serve (bin_list U url) w) = [base]
  /\ fst (fst (run serve (bin_list U url) w))
     = outcome U base (fst (serve w base))
  /\ hd_error base <> Some (chr "/")
  /\ hd_error (rev base) <> Some (chr "/")
  /\ exists i j, url = repeat (chr "/") i ++ base ++ repeat (chr "/") j
                 /\ S n <= i.
Proof.
  cbv zeta. rewrite !run_bin_list, strip_repeat_app. cbn [fst snd].
  repeat split.
  - destruct (strip_decompose (chr "/") u) as (i & j & _ & H & _). exact H.
  - destruct (strip_decompose (chr "/") u) as (i & j & _ & _ & H). exact H.
  - destruct (strip_decompose (chr "/") u) as (i & j & E & _).
    exists (S n + i), j. split; [|lia].
    rewrite repeat_app, <- app_assoc. now rewrite <- E.
Qed.

(** C2.  The collected tokens are the texts of those non-overlapping matches
    of \d+((\.|-)(\d|\w)+)+ in the body that start right after a [>], in
    the order of the body.  Each collected token therefore stands right
    after a [>] and is a string of the language of that expression. *)
Theorem collected_tokens_follow_gt U body :
  versions_of U pattern body = tokens_after_gt U body
  /\ (forall tok,
        In tok (versions_of U pattern body) ->
        exists pre post,
          body = pre ++ chr ">" :: tok ++ post
          /\ matches U version_token tok).
Proof.
  split; [apply versions_of_tokens_after_gt|].
  intros tok. rewrite versions_of_tokens_after_gt.
  apply tokens_after_gt_located.
Qed.

Lemma collected_tokens_follow_gt_witness :
  exists pre post,
    lit "1.2-rc 3.4 <b>5.6-beta_7.</b>"
    = pre ++ chr ">" :: lit "5.6-beta_7" ++ post
    /\ matches ascii_ucd version_token (lit "5.6-beta_7").
Proof.
  apply (proj2 (collected_tokens_follow_gt ascii_ucd
                  (lit "1.2-rc 3.4 <b>5.6-beta_7.</b>"))).
  vm_compute. left. reflexivity.
Defined.

(** C10.  Replacing (\d|\w) by \w in the pattern changes nothing: for every
    body the program's pattern and the simpler one yield the same list of
    tokens, and the two bare token expressions match at the same places. *)
Theorem simpler_pattern_equivalent U body :
  versions_of U pattern body = versions_of U simple_pattern body
  /\ List.map (fun m => (m_start m, m_end m)) (finditer U version_token body)
     = List.map (fun m => (m_start m, m_end m))
         (finditer U (simple_token_regex 1) body).
Proof.
  split.
  - apply versions_of_sim with (G := Nat.eqb 1);
      [reflexivity | apply sim_simple_pattern].
  - unfold finditer, version_token.
    pose proof (@finditer_from_sim U (fun _ => false) _ _
                  (@sim_simple_token U (fun _ => false) 1 eq_refl) body 0 0)
      as HF.
    induction HF as [|m1 m2 l1 l2 Hm _ IH]; simpl; [reflexivity|].
    f_equal; [|exact IH].
    destruct Hm as (Hs & He & _). unfold m_end. now rewrite Hs, He.
Qed.

(** ** Further checks of the model *)

(** A descending arrangement of a list of strings is unique, so the result
    of the sort does not depend on the sorting algorithm. *)
Lemma descending_unique l1 : forall l2,
  StronglySorted str_ge l1 -> StronglySorted str_ge l2 ->
  Permutation l1 l2 -> l1 = l2.
Proof.
  induction l1 as [|x l1 IH]; intros l2 H1 H2 HP.
  - apply Permutation_nil in HP. now subst.
  - destruct l2 as [|y l2];
      [apply Permutation_sym, Permutation_nil in HP; discriminate|].
    inversion H1 as [|? ? H1' HF1]; inversion H2 as [|? ? H2' HF2]; subst.
    rewrite Forall_forall in HF1, HF2.
    assert (x = y).
    { apply str_ge_antisym.
      - assert (Hy : In y (x :: l1))
          by (apply (Permutation_in _ (Permutation_sym HP)); now left).
        destruct Hy as [->|Hy]; [apply str_ltb_irrefl | now apply HF1].
      - assert (Hx : In x (y :: l2))
          by (apply (Permutation_in _ HP); now left).
        destruct Hx as [->|Hx]; [apply str_ltb_irrefl | now apply HF2]. }
    subst y. f_equal. apply IH; auto.
    now apply Permutation_cons_inv with x.
Qed.

Lemma sort_reverse_unique l l' :
  StronglySorted str_ge l' -> Permutation l l' -> sort_reverse l = l'.
Proof.
  intros Hs HP. apply descending_unique; auto using sort_reverse_sorted.
  rewrite <- HP. symmetry. apply sort_reverse_perm.
Qed.

(** Every match consumes at least one character. *)
Lemma match_at_progress U r p t m :
  match_at U r p t = Some m -> p < m_end m.
Proof.
  intros H. apply match_at_sound in H. destruct H as (w & Hm & _ & _ & He).
  apply matches_alphabet in Hm. destruct Hm as [Hne _].
  destruct w; [congruence | simpl in He; lia].
Qed.

(** The page quoted in the source resolves to release 3.8.5. *)
Example apache_page_resolves :
  run_on (serving (blit apache_page)) (bin_list ascii_ucd default_url)
  = Return
      [lit "https://archive.apache.org/dist/maven/maven-3/3.8.5/binaries/apache-maven-3.8.5-bin.tar.gz";
       lit "https://archive.apache.org/dist/maven/maven-3/3.8.5/binaries/apache-maven-3.8.5-bin.zip"].
Proof. vm_compute. reflexivity. Qed.

Example apache_page_versions :
  versions_of ascii_ucd pattern (lit apache_page)
  = List.map (fun e => lit (fst e)) apache_entries.
Proof. vm_compute. reflexivity. Qed.

(** The request of a call with a stray leading slash. *)
Example slash_url_request :
  snd (run (counting listing_3_8) (bin_list ascii_ucd slash_url) 0)
  = [lit "https://archive.apache.org/dist/maven/maven-3"].
Proof. vm_compute. reflexivity. Qed.

(** The limits of the redirect handler, on networks that only redirect:
    a loop on one URL ends after five requests, a to and fro between two
    URLs after nine, a chain of new URLs after eleven. *)
Example redirect_loop_five_requests :
  urlopen_http loop_server (tt, []) (lit "http://host/a")
  = (Failed, (tt, repeat (lit "http://host/a") 5)).
Proof. vm_compute. reflexivity. Qed.

Example redirect_pingpong_nine_requests :
  List.length (snd (snd (urlopen_http pingpong_server (tt, [])
                           (lit "http://host/a")))) = 9.
Proof. vm_compute. reflexivity. Qed.

Example redirect_chain_eleven_requests :
  List.length (snd (snd (urlopen_http chain_server (tt, [])
                           (lit "http://host")))) = 11.
Proof. vm_compute. reflexivity. Qed.

(** The default call against a server that redirects the directory: one
    URL opened, two requests sent, release 3.8.5 found. *)
Example directory_redirect_two_requests :
  run (urlopen_http (directory_server listing_3_8))
      (bin_list ascii_ucd default_url) (tt, [])
  = (Return
       [lit "https://archive.apache.org/dist/maven/maven-3/3.8.5/binaries/apache-maven-3.8.5-bin.tar.gz";
        lit "https://archive.apache.org/dist/maven/maven-3/3.8.5/binaries/apache-maven-3.8.5-bin.zip"],
     (tt, [lit "https://archive.apache.org/dist/maven/maven-3";
           lit "https://archive.apache.org/dist/maven/maven-3/"]),
     [lit "https://archive.apache.org/dist/maven/maven-3"]).
Proof. vm_compute. reflexivity. Qed.

(** * Further properties *)

(** ** Greedy matching of the token expression *)

Section Greedy.
Variable U : ucd.

Lemma orelse_none_r A (x : option A) : orelse x None = x.
Proof. now destruct x. Qed.

Lemma orelse_total_l A (x y : option A) : x <> None -> orelse x y = x.
Proof. now destruct x. Qed.

Lemma drop_while_not_start p t : starts_with p (drop_while p t) = false.
Proof.
  induction t as [|c t IH]; simpl; [reflexivity|].
  destruct (p c) eqn:E; [exact IH | simpl; exact E].
Qed.

Lemma run_length_start p t : starts_with p t = Nat.leb 1 (run_length p t).
Proof. destruct t as [|c t]; simpl; [reflexivity|]. now destruct (p c). Qed.

Lemma run_drop p t : t = firstn (run_length p t) t ++ drop_while p t.
Proof.
  induction t as [|c t IH]; simpl; [reflexivity|].
  destruct (p c); simpl; [now rewrite <- IH | reflexivity].
Qed.

Lemma run_length_le p t : run_length p t <= List.length t.
Proof. induction t as [|c t IH]; simpl; [lia|]. destruct (p c); simpl; lia. Qed.

Lemma firstn_run_all p t : Forall (fun c => p c = true) (firstn (run_length p t) t).
Proof.
  induction t as [|c t IH]; simpl; [constructor|].
  destruct (p c) eqn:E; simpl; [now constructor | constructor].
Qed.

Lemma skip_run_advance p st c t :
  rest st = c :: t -> p c = true ->
  skip_run p (advance st t) = skip_run p st.
Proof.
  intros Hr Hc. unfold skip_run, advance. simpl. rewrite Hr. simpl.
  rewrite Hc. f_equal. lia.
Qed.

(** A greedy run of one character class, when the continuation cannot
    succeed in the middle of the run. *)
Lemma rounds_class p body k :
  (forall st k', body st k' = step_if p st k') ->
  (forall s, starts_with p (rest s) = true -> k s = None) ->
  forall fuel st,
    List.length (rest st) <= fuel ->
    rounds body k fuel st =
    if starts_with p (rest st) then k (skip_run p st) else None.
Proof.
  intros Hb Hk. induction fuel as [|fuel IH]; intros st Hl.
  - destruct (rest st) eqn:E; [|simpl in Hl; lia].
    cbn [rounds]. rewrite Hb. unfold step_if. now rewrite E.
  - cbn [rounds]. rewrite Hb. unfold step_if.
    destruct (rest st) as [|c t] eqn:E; [reflexivity|]. cbn [starts_with].
    destruct (p c) eqn:Hc; [|reflexivity].
    replace (Nat.ltb (pos st) (pos (advance st t))) with true
      by (symmetry; apply Nat.ltb_lt; simpl; lia).
    rewrite IH by (simpl in *; lia). cbn [rest advance].
    rewrite (skip_run_advance p st E Hc).
    destruct (starts_with p t) eqn:Hs.
    + rewrite (Hk (advance st t)) by exact Hs. apply orelse_none_r.
    + cbn [orelse]. f_equal. unfold skip_run, advance. rewrite E. simpl.
      rewrite Hc. destruct t as [|c' t']; simpl in *.
      * f_equal. lia.
      * rewrite Hs. f_equal. lia.
Qed.

(** The same run when the continuation cannot fail. *)
Lemma rounds_class_total p body k :
  (forall st k', body st k' = step_if p st k') ->
  (forall s, k s <> None) ->
  forall fuel st,
    List.length (rest st) <= fuel ->
    rounds body k fuel st =
    if starts_with p (rest st) then k (skip_run p st) else None.
Proof.
  intros Hb Hk. induction fuel as [|fuel IH]; intros st Hl.
  - destruct (rest st) eqn:E; [|simpl in Hl; lia].
    cbn [rounds]. rewrite Hb. unfold step_if. now rewrite E.
  - cbn [rounds]. rewrite Hb. unfold step_if.
    destruct (rest st) as [|c t] eqn:E; [reflexivity|]. cbn [starts_with].
    destruct (p c) eqn:Hc; [|reflexivity].
    replace (Nat.ltb (pos st) (pos (advance st t))) with true
      by (symmetry; apply Nat.ltb_lt; simpl; lia).
    rewrite IH by (simpl in *; lia). cbn [rest advance].
    rewrite (skip_run_advance p st E Hc).
    destruct (starts_with p t) eqn:Hs.
    + apply orelse_total_l, Hk.
    + cbn [orelse]. f_equal. unfold skip_run, advance. rewrite E. simpl.
      rewrite Hc. destruct t as [|c' t']; simpl in *.
      * f_equal. lia.
      * rewrite Hs. f_equal. lia.
Qed.

Lemma exec_sep st k :
  exec U (Alt (Lit (chr ".")) (Lit (chr "-"))) st k =
  match rest st with
  | c :: t => if is_sep c then k (advance st t) else None
  | [] => None
  end.
Proof.
  cbn [exec]. unfold step_if, is_sep.
  destruct (rest st) as [|c t]; [reflexivity|].
  destruct (N.eqb_spec (chr ".") c) as [<-|_]; [|reflexivity].
  cbn [orb]. replace (N.eqb (chr "-") (chr ".")) with false by reflexivity.
  apply orelse_none_r.
Qed.

Lemma exec_plus_word_total st k :
  (forall s, k s <> None) ->
  exec U (Plus Word) st k =
  if starts_with (re_word U) (rest st) then k (skip_run (re_word U) st)
  else None.
Proof.
  intros Hk. cbn [exec].
  apply (@rounds_class_total (re_word U) (exec U Word) k); auto.
Qed.

Lemma exec_sep_word_total st k :
  (forall s, k s <> None) ->
  exec U sep_word st k =
  match sw_next U st with Some s2 => k s2 | None => None end.
Proof.
  intros Hk. unfold sep_word, sw_next.
  change (exec U (Cat (Alt (Lit (chr ".")) (Lit (chr "-"))) (Plus Word)) st k)
    with (exec U (Alt (Lit (chr ".")) (Lit (chr "-"))) st
            (fun s1 => exec U (Plus Word) s1 k)).
  rewrite exec_sep. destruct (rest st) as [|c t]; [reflexivity|].
  destruct (is_sep c); [|reflexivity]. cbn [andb].
  rewrite exec_plus_word_total by exact Hk. cbn [rest advance].
  now destruct (starts_with (re_word U) t).
Qed.

Lemma sw_next_spec st s2 :
  sw_next U st = Some s2 ->
  exists c w,
    is_sep c = true /\ w <> [] /\ Forall (fun x => re_word U x = true) w
    /\ rest st = c :: w ++ rest s2
    /\ pos s2 = pos st + S (List.length w)
    /\ starts_with (re_word U) (rest s2) = false.
Proof.
  unfold sw_next. destruct (rest st) as [|c t] eqn:E; [discriminate|].
  destruct (is_sep c) eqn:Hc; [|discriminate].
  destruct (starts_with (re_word U) t) eqn:Hs; [|discriminate].
  intros [= <-]. exists c, (firstn (run_length (re_word U) t) t).
  unfold skip_run, advance. cbn [rest pos].
  repeat split; auto.
  - rewrite run_length_start in Hs. destruct t as [|x t']; [discriminate|].
    simpl in *. destruct (re_word U x); [discriminate | discriminate].
  - apply firstn_run_all.
  - f_equal. apply run_drop.
  - rewrite length_firstn. pose proof (run_length_le (re_word U) t). lia.
  - apply drop_while_not_start.
Qed.

(** The continuation of one more round of a repetition cannot fail when the
    continuation after the repetition cannot. *)
Lemma rounds_sep_word fuel st :
  rounds (exec U sep_word) Some fuel st =
  match sw_next U st with
  | Some s2 =>
      match fuel with
      | S fuel' => orelse (rounds (exec U sep_word) Some fuel' s2) (Some s2)
      | O => Some s2
      end
  | None => None
  end.
Proof.
  destruct fuel as [|fuel]; cbn [rounds].
  - now rewrite exec_sep_word_total.
  - rewrite exec_sep_word_total.
    + destruct (sw_next U st) as [s2|] eqn:E; [|reflexivity].
      apply sw_next_spec in E. destruct E as (c & w & _ & _ & _ & _ & Hp & _).
      replace (Nat.ltb (pos st) (pos s2)) with true
        by (symmetry; apply Nat.ltb_lt; lia).
      reflexivity.
    + intros s. destruct (Nat.ltb (pos st) (pos s)); [|discriminate].
      now destruct (rounds (exec U sep_word) Some fuel s).
Qed.

Lemma rounds_sep_word_maximal : forall fuel st x,
  List.length (rest st) <= fuel ->
  rounds (exec U sep_word) Some fuel st = Some x ->
  token_continues U (rest x) = false.
Proof.
  induction fuel as [|fuel IH]; intros st x Hl; rewrite rounds_sep_word;
    destruct (sw_next U st) as [s2|] eqn:E; try discriminate;
    apply sw_next_spec in E;
    destruct E as (c & w & Hc & Hw & _ & Hr & Hp & Hn).
  - rewrite Hr in Hl. simpl in Hl. lia.
  - destruct (rounds (exec U sep_word) Some fuel s2) as [y|] eqn:Ey; cbn [orelse].
    + intros [= <-]. apply (IH s2); [|exact Ey].
      rewrite Hr in Hl. simpl in Hl. rewrite length_app in Hl. lia.
    + intros [= <-]. rewrite rounds_sep_word in Ey.
      unfold token_continues. rewrite Hn. cbn [orb].
      unfold sw_next in Ey. destruct (rest s2) as [|c' t']; [reflexivity|].
      destruct (is_sep c' && starts_with (re_word U) t'); [|reflexivity].
      now destruct fuel; [|destruct (rounds _ _ _ _)].
Qed.

Lemma digit_not_sep c : re_digit U c = true -> is_sep c = false.
Proof.
  unfold is_sep. intros H.
  destruct (N.eqb_spec (chr ".") c) as [<-|_]; [discriminate H|].
  destruct (N.eqb_spec (chr "-") c) as [<-|_]; [discriminate H|].
  reflexivity.
Qed.

Lemma sw_next_digit st :
  starts_with (re_digit U) (rest st) = true -> sw_next U st = None.
Proof.
  unfold sw_next. destruct (rest st) as [|c t]; [reflexivity|]. simpl.
  intros H. now rewrite (digit_not_sep _ H).
Qed.

(** The token expression without its groups: the leading digits are the
    whole run of digits, then the rounds of separator and word run. *)
Lemma exec_plain_token st :
  exec U plain_token st Some =
  if starts_with (re_digit U) (rest st)
  then rounds (exec U sep_word) Some
         (List.length (rest (skip_run (re_digit U) st)))
         (skip_run (re_digit U) st)
  else None.
Proof.
  unfold plain_token. fold sep_word.
  change (exec U (Cat (Plus Digit) (Plus sep_word)) st Some)
    with (rounds (exec U Digit) (fun s1 => exec U (Plus sep_word) s1 Some)
            (List.length (rest st)) st).
  rewrite (@rounds_class (re_digit U) (exec U Digit)); auto.
  intros s Hs. cbn [exec]. rewrite rounds_sep_word.
  now rewrite (sw_next_digit _ Hs).
Qed.

Lemma sim_plain_token G g :
  (forall n, G n = false) -> sim U G (token_regex g) plain_token.
Proof.
  intros HG. unfold token_regex, plain_token.
  apply sim_cat; [apply sim_plus, sim_digit|].
  apply sim_plus, sim_grp_l; auto.
  apply sim_cat.
  - apply sim_grp_l; auto. apply sim_alt; apply sim_lit.
  - apply sim_plus, sim_grp_l; auto. apply sim_digit_or_word.
Qed.

(** Where the token expression matches, and what follows the match. *)
Lemma match_at_token_iff g p t :
  match_at U (token_regex g) p t <> None <-> token_starts_here U t = true.
Proof.
  pose proof (@match_at_sim U (fun _ => false) (token_regex g) plain_token p t
                (sim_plain_token g (fun _ => eq_refl))) as Hs.
  assert (Hp : match_at U plain_token p t <> None
               <-> token_starts_here U t = true).
  { unfold match_at. rewrite exec_plain_token. cbn [rest].
    unfold token_starts_here.
    destruct (starts_with (re_digit U) t); cbn [andb];
      [|split; [intros H; now elim H | discriminate]].
    rewrite rounds_sep_word. unfold sw_next, skip_run. cbn [rest].
    destruct (drop_while (re_digit U) t) as [|c t'];
      [split; [intros H; now elim H | discriminate]|].
    destruct (is_sep c && starts_with (re_word U) t');
      [|split; [intros H; now elim H | discriminate]].
    split; [reflexivity|]. intros _.
    destruct (List.length (c :: t')); [discriminate|].
    now destruct (rounds _ _ _ _). }
  rewrite <- Hp.
  destruct (match_at U (token_regex g) p t), (match_at U plain_token p t);
    try tauto; split; congruence.
Qed.

Lemma match_at_token_maximal g p t m :
  match_at U (token_regex g) p t = Some m ->
  token_continues U (rest (m_final m)) = false.
Proof.
  intros H.
  pose proof (@match_at_sim U (fun _ => false) (token_regex g) plain_token p t
                (sim_plain_token g (fun _ => eq_refl))) as Hs.
  rewrite H in Hs.
  destruct (match_at U plain_token p t) as [m'|] eqn:E; [|destruct Hs].
  destruct Hs as (_ & _ & Hr & _). rewrite Hr.
  unfold match_at in E. rewrite exec_plain_token in E. cbn [rest] in E.
  destruct (starts_with (re_digit U) t); [|discriminate].
  destruct (rounds _ _ _ _) as [x|] eqn:Ex; [|discriminate].
  injection E as <-. cbn [m_final].
  apply (rounds_sep_word_maximal _ (Nat.le_refl _) Ex).
Qed.
End Greedy.

Section Coverage.
Variable U : ucd.

Lemma firstn_length_app (A : Type) (w r : list A) :
  firstn (List.length w) (w ++ r) = w.
Proof. now rewrite firstn_app, Nat.sub_diag, firstn_all, app_nil_r. Qed.

(** The scan for the bare token expression tries a match right after every
    [>]: what it skips never contains a [>]. *)
Lemma finditer_token_complete m : forall t (pre : str) skip,
  Forall (fun x => x <> chr ">") (firstn skip t) ->
  forall pre2 t2,
    t = pre2 ++ chr ">" :: t2 ->
    match_at U version_token (List.length pre + List.length pre2 + 1) t2
    = Some m ->
    In m (finditer_from U version_token (List.length pre) t skip).
Proof.
  unfold version_token.
  induction t as [|c t IH]; intros pre skip HF pre2 t2 Ht Hm.
  - now destruct pre2.
  - assert (Hstep : forall n (pre2' : str),
               Forall (fun x => x <> chr ">") (firstn n t) ->
               t = pre2' ++ chr ">" :: t2 ->
               List.length pre2 = S (List.length pre2') ->
               In m (finditer_from U (token_regex 1) (S (List.length pre)) t n)).
    { intros n pre2' HF' Ht' Hl.
      specialize (IH (pre ++ [c]) n HF' pre2' t2 Ht').
      replace (List.length (pre ++ [c])) with (S (List.length pre)) in IH
        by (rewrite length_app; simpl; lia).
      apply IH. rewrite <- Hm. f_equal. lia. }
    destruct pre2 as [|c' pre2'].
    + cbn [app] in Ht. injection Ht as -> ->.
      destruct skip as [|n];
        [|cbn [firstn] in HF; apply Forall_cons_iff in HF; now destruct HF].
      cbn [finditer_from]. rewrite match_at_token_gt.
      cbn [List.length] in Hm. rewrite Nat.add_0_r, Nat.add_1_r in Hm.
      destruct t2 as [|c2 t2']; [now rewrite match_at_token_nil in Hm|].
      cbn [finditer_from]. rewrite Hm. now left.
    + cbn [app] in Ht. injection Ht as <- Ht.
      destruct skip as [|n].
      * cbn [finditer_from].
        destruct (match_at U (token_regex 1) (List.length pre) (c :: t))
          as [m0|] eqn:E0.
        -- right. apply (Hstep _ pre2'); auto.
           destruct (match_at_token _ _ _ _ E0)
             as (c0 & w' & Et & _ & He & HF0 & _).
           injection Et as <- Et. apply Forall_cons_iff in HF0.
           replace (m_end m0 - List.length pre - 1) with (List.length w')
             by lia.
           rewrite Et, firstn_length_app. tauto.
        -- apply (Hstep _ pre2'); auto.
      * cbn [finditer_from]. cbn [firstn] in HF.
        apply Forall_cons_iff in HF. apply (Hstep _ pre2'); tauto.
Qed.

(** Every collected token stands right after a [>], is not continued by
    the text that follows it, and the text from it on starts a token. *)
Lemma versions_of_located body tok :
  In tok (versions_of U pattern body) ->
  exists pre post,
    body = pre ++ chr ">" :: tok ++ post
    /\ matches U version_token tok
    /\ token_continues U post = false
    /\ token_starts_here U (tok ++ post) = true.
Proof.
  rewrite versions_of_tokens_after_gt.
  unfold tokens_after_gt, finditer. intros H.
  apply in_map_iff in H. destruct H as (m & <- & H).
  apply filter_In in H. destruct H as [H Hgt].
  apply (@finditer_from_In U version_token m body [] 0) in H.
  destruct H as (pre' & t' & Hb & H). cbn [app] in Hb.
  pose proof (@match_at_token_maximal U 1 _ _ _ H) as Hmax.
  assert (Hst : token_starts_here U t' = true)
    by (apply (match_at_token_iff U 1 (List.length pre') t');
        unfold version_token in H; congruence).
  apply match_at_sound in H. destruct H as (w & Hm & Ht & Hs & He).
  pose proof (@preceded_by_at body pre' t' m Hb Hs) as Hp.
  rewrite Hgt in Hp.
  destruct pre' as [|x pre0 _] using rev_ind; [discriminate|].
  rewrite gt_before_snoc in Hp. symmetry in Hp. apply N.eqb_eq in Hp.
  subst x. exists pre0, (rest (m_final m)).
  rewrite Hs, He, Hb, Ht. rewrite slice_app.
  repeat split; auto; [now rewrite <- app_assoc | now rewrite <- Ht].
Qed.

Lemma versions_of_complete body pre t :
  body = pre ++ chr ">" :: t ->
  token_starts_here U t = true ->
  exists tok post,
    t = tok ++ post /\ tok <> []
    /\ In tok (versions_of U pattern body)
    /\ token_continues U post = false.
Proof.
  intros Hb Hst.
  destruct (match_at U version_token (List.length pre + 1) t) as [m|] eqn:E;
    [|apply (match_at_token_iff U 1 (List.length pre + 1) t) in Hst;
      now elim Hst].
  pose proof (@match_at_token_maximal U 1 _ _ _ E) as Hmax.
  assert (Hin : In m (finditer U version_token body)).
  { unfold finditer.
    apply (@finditer_token_complete m body [] 0 (Forall_nil _) pre t Hb).
    exact E. }
  apply match_at_sound in E. destruct E as (w & Hm & Ht & Hs & He).
  exists w, (rest (m_final m)). split; [exact Ht|]. split.
  { apply matches_alphabet in Hm. tauto. }
  split; [|exact Hmax].
  rewrite versions_of_tokens_after_gt. unfold tokens_after_gt.
  apply in_map_iff. exists m. split.
  - rewrite Hs, He, Hb, Ht.
    replace (pre ++ chr ">" :: w ++ rest (m_final m))
      with ((pre ++ [chr ">"]) ++ w ++ rest (m_final m))
      by (now rewrite <- app_assoc).
    replace (List.length pre + 1) with (List.length (pre ++ [chr ">"]))
      by (rewrite length_app; reflexivity).
    apply slice_app.
  - apply filter_In. split; [exact Hin|].
    rewrite (@preceded_by_at body (pre ++ [chr ">"]) t m).
    + now rewrite gt_before_snoc.
    + now rewrite <- app_assoc.
    + rewrite Hs, length_app. reflexivity.
Qed.
End Coverage.

Section Shape.
Variable U : ucd.

(** A property of the strings of [r+] that holds for one round and is kept
    by a round in front. *)
Lemma matches_plus_ind r (P : str -> Prop) :
  (forall x, matches U r x -> P x) ->
  (forall x y, matches U r x -> P y -> P (x ++ y)) ->
  forall w, matches U (Plus r) w -> P w.
Proof.
  intros H1 H2 w H. remember (Plus r) as q eqn:E.
  induction H; try discriminate; injection E as ->; auto.
Qed.

Lemma matches_class_run r p w :
  (forall x, matches U r x -> exists c, x = [c] /\ p c = true) ->
  matches U (Plus r) w ->
  w <> [] /\ Forall (fun c => p c = true) w.
Proof.
  intros Hr. revert w.
  apply (@matches_plus_ind r
           (fun w => w <> [] /\ Forall (fun c => p c = true) w)).
  - intros x Hx. destruct (Hr x Hx) as (c & -> & Hc).
    split; [discriminate | now repeat constructor].
  - intros x y Hx [_ Hy]. destruct (Hr x Hx) as (c & -> & Hc).
    split; [discriminate | now constructor].
Qed.

Lemma matches_digit_inv x :
  matches U Digit x -> exists c, x = [c] /\ re_digit U c = true.
Proof. inversion 1; subst; eauto. Qed.

Lemma matches_word_group_inv n x :
  matches U (Grp n (Alt Digit Word)) x ->
  exists c, x = [c] /\ re_word U c = true.
Proof.
  inversion 1 as [| | | | | | | |? ? ? H']; subst.
  inversion H' as [| | | |? ? ? H''|? ? ? H''| | |]; subst;
    inversion H''; subst; eauto using digit_is_word.
Qed.

Lemma matches_sep_group_inv n x :
  matches U (Grp n (Alt (Lit (chr ".")) (Lit (chr "-")))) x ->
  exists c, x = [c] /\ is_sep c = true.
Proof.
  inversion 1 as [| | | | | | | |? ? ? H']; subst.
  inversion H' as [| | | |? ? ? H''|? ? ? H''| | |]; subst;
    inversion H''; subst; eexists; split; reflexivity.
Qed.

(** The shape of a token: a digit first, a word character last, a separator
    in between, nothing but word characters and separators. *)
Lemma token_shape g w :
  matches U (token_regex g) w ->
  exists d mid l,
    w = d :: mid ++ [l]
    /\ re_digit U d = true /\ re_word U l = true
    /\ Exists (fun c => is_sep c = true) mid
    /\ Forall (fun c => token_char U c = true) w.
Proof.
  unfold token_regex. inversion 1 as [| | |? ? w1 w2 H1 H2| | | | |]; subst.
  apply (matches_class_run (re_digit U) matches_digit_inv) in H1.
  destruct H1 as [N1 F1].
  assert (H3 : exists c rest l,
             w2 = c :: rest ++ [l] /\ is_sep c = true /\ re_word U l = true
             /\ Forall (fun c => token_char U c = true) w2).
  { revert H2. generalize w2.
    apply (@matches_plus_ind _
             (fun w2 => exists c rest l,
                  w2 = c :: rest ++ [l] /\ is_sep c = true
                  /\ re_word U l = true
                  /\ Forall (fun c => token_char U c = true) w2)).
    - intros x Hx.
      inversion Hx as [| | | | | | | |? ? ? Hx']; subst.
      inversion Hx' as [| | |? ? x1 x2 Hs Hw| | | | |]; subst.
      apply matches_sep_group_inv in Hs. destruct Hs as (c & -> & Hc).
      apply (matches_class_run (re_word U) (@matches_word_group_inv _)) in Hw.
      destruct Hw as [Nw Fw].
      destruct (exists_last Nw) as (rest & l & ->).
      exists c, rest, l. repeat split; auto.
      + apply Forall_app in Fw. destruct Fw as [_ Fl]. now inversion Fl.
      + constructor; [unfold token_char; now rewrite Hc, orb_true_r|].
        eapply Forall_impl; [|exact Fw]. unfold token_char.
        now intros a ->.
    - intros x y Hx (c2 & rest2 & l2 & -> & Hc2 & Hl2 & Fy).
      inversion Hx as [| | | | | | | |? ? ? Hx']; subst.
      inversion Hx' as [| | |? ? x1 x2 Hs Hw| | | | |]; subst.
      apply matches_sep_group_inv in Hs. destruct Hs as (c & -> & Hc).
      apply (matches_class_run (re_word U) (@matches_word_group_inv _)) in Hw.
      destruct Hw as [Nw Fw].
      exists c, (x2 ++ c2 :: rest2), l2. repeat split; auto.
      + cbn [app]. f_equal. now rewrite <- !app_assoc.
      + cbn [app]. constructor;
          [unfold token_char; now rewrite Hc, orb_true_r|].
        apply Forall_app. split; [|exact Fy].
        eapply Forall_impl; [|exact Fw]. unfold token_char.
        now intros a ->. }
  destruct H3 as (c & rest & l & -> & Hc & Hl & F2).
  destruct w1 as [|d w1']; [congruence|].
  exists d, (w1' ++ c :: rest), l. repeat split; auto.
  - cbn [app]. f_equal. now rewrite <- !app_assoc.
  - now inversion F1.
  - apply Exists_app. right. now left.
  - apply Forall_app. split; [|exact F2].
    eapply Forall_impl; [|exact F1]. unfold token_char. cbv beta.
    intros a Ha. now rewrite (digit_is_word _ _ Ha).
Qed.
End Shape.

(** ** More on stripping, order and running *)

Lemma lstrip_id c s : hd_error s <> Some c -> lstrip c s = s.
Proof.
  destruct s as [|x s']; [reflexivity|]. simpl. intros H.
  destruct (N.eqb_spec x c) as [->|_]; [now elim H | reflexivity].
Qed.

Lemma rstrip_id c s : hd_error (rev s) <> Some c -> rstrip c s = s.
Proof.
  intros H. unfold rstrip. now rewrite lstrip_id, rev_involutive.
Qed.

(** [strip] gives back the text between the slashes. *)
Lemma strip_exact c i j m :
  hd_error m <> Some c -> hd_error (rev m) <> Some c ->
  strip c (repeat c i ++ m ++ repeat c j) = m.
Proof.
  intros Hh Hl. rewrite strip_repeat_app, strip_app_repeat.
  unfold strip. now rewrite lstrip_id, rstrip_id.
Qed.

Lemma strip_nil_iff c s : strip c s = [] <-> exists n, s = repeat c n.
Proof.
  split.
  - intros H. destruct (strip_decompose c s) as (i & j & E & _).
    exists (i + j). rewrite E, H. cbn [app]. now rewrite repeat_app.
  - intros [n ->]. rewrite <- (app_nil_r (repeat c n)).
    now rewrite strip_repeat_app.
Qed.

Lemma str_ltb_extend t s : s <> [] -> str_ltb t (t ++ s) = true.
Proof.
  intros Hs. induction t as [|x t IH]; simpl.
  - now destruct s.
  - now rewrite N.ltb_irrefl.
Qed.

(** The value of a call that was served a body with tokens. *)
Lemma outcome_Return U url resp l :
  outcome U url resp = Return l ->
  exists raw body v r,
    resp = Served raw /\ decode raw = Some body
    /\ sort_reverse (versions_of U pattern body) = v :: r
    /\ l = [template_url url v (lit "tar.gz");
            template_url url v (lit "zip")].
Proof.
  unfold outcome. destruct resp as [|raw]; [discriminate|].
  destruct (decode raw) as [body|] eqn:Hd; [|discriminate].
  destruct (sort_reverse (versions_of U pattern body)) as [|v r] eqn:E;
    [discriminate|].
  intros [= <-]. now exists raw, body, v, r.
Qed.

(** Bodies with the same set of tokens have the same first token after
    sorting. *)
Lemma sort_reverse_head_same l1 l2 :
  (forall t, In t l1 <-> In t l2) ->
  hd_error (sort_reverse l1) = hd_error (sort_reverse l2).
Proof.
  intros H.
  destruct (sort_reverse l1) as [|v1 r1] eqn:E1,
           (sort_reverse l2) as [|v2 r2] eqn:E2; try reflexivity.
  - apply sort_reverse_nil in E1. subst l1.
    destruct (sort_reverse_head _ E2) as [Hin _]. now apply H in Hin.
  - apply sort_reverse_nil in E2. subst l2.
    destruct (sort_reverse_head _ E1) as [Hin _]. now apply H in Hin.
  - destruct (sort_reverse_head _ E1) as [Hin1 Hmax1].
    destruct (sort_reverse_head _ E2) as [Hin2 Hmax2].
    simpl. f_equal. apply str_ge_antisym; unfold str_ge.
    + apply H in Hin2. apply Hmax1 in Hin2. unfold str_leb in Hin2.
      now apply negb_true_iff in Hin2.
    + apply H in Hin1. apply Hmax2 in Hin1. unfold str_leb in Hin1.
      now apply negb_true_iff in Hin1.
Qed.

(** No token is collected exactly when no [>] of the body is followed by
    the start of a token. *)
Lemma versions_of_nil_iff U body :
  versions_of U pattern body = []
  <-> (forall pre t, body = pre ++ chr ">" :: t ->
                     token_starts_here U t = false).
Proof.
  split.
  - intros Hnil pre t Hb.
    destruct (token_starts_here U t) eqn:E; [|reflexivity].
    destruct (@versions_of_complete U body pre t Hb E)
      as (tok & post & _ & _ & Hin & _).
    rewrite Hnil in Hin. destruct Hin.
  - intros H. destruct (versions_of U pattern body) as [|tok l] eqn:E;
      [reflexivity|].
    assert (Hin : In tok (versions_of U pattern body))
      by (rewrite E; now left).
    apply versions_of_located in Hin.
    destruct Hin as (pre & post & Hb & _ & _ & Hs).
    now rewrite (H pre (tok ++ post) Hb) in Hs.
Qed.

(** ** What [repr] does to plain text *)

Lemma repr_char_plain printable c :
  plain printable c = true -> repr_char printable 39%N c = [c].
Proof.
  unfold plain, repr_char. intros H.
  apply andb_prop in H. destruct H as [H H3].
  apply andb_prop in H. destruct H as [H1 H2].
  apply negb_true_iff in H1, H2. rewrite H1, H2. cbn [orb].
  destruct (c <? 127)%N eqn:E.
  - apply N.ltb_lt in E. apply N.leb_le in H3.
    repeat match goal with
    | |- context [N.eqb c ?k] =>
        replace (N.eqb c k) with false by (symmetry; apply N.eqb_neq; lia)
    end.
    replace (c <? 32)%N with false by (symmetry; apply N.ltb_ge; lia).
    reflexivity.
  - apply N.ltb_ge in E. apply andb_prop in H3. destruct H3 as [H3 H4].
    apply negb_true_iff in H3. rewrite H3, H4.
    repeat match goal with
    | |- context [N.eqb c ?k] =>
        replace (N.eqb c k) with false by (symmetry; apply N.eqb_neq; lia)
    end.
    replace (c <? 32)%N with false by (symmetry; apply N.ltb_ge; lia).
    reflexivity.
Qed.

Lemma plain_not_quote printable s :
  Forall (fun c => plain printable c = true) s ->
  existsb (N.eqb 39%N) s = false.
Proof.
  induction 1 as [|c s Hc _ IH]; [reflexivity|]. cbn [existsb]. rewrite IH.
  unfold plain in Hc. apply andb_prop in Hc. destruct Hc as [Hc _].
  apply andb_prop in Hc. destruct Hc as [Hc _].
  apply negb_true_iff in Hc. now rewrite N.eqb_sym, Hc.
Qed.

Lemma repr_str_plain printable s :
  Forall (fun c => plain printable c = true) s ->
  repr_str printable s = 39%N :: s ++ [39%N].
Proof.
  intros H. unfold repr_str. rewrite (@plain_not_quote printable s H).
  cbn [andb].
  f_equal. f_equal. induction H as [|c s Hc _ IH]; [reflexivity|].
  cbn [flat_map]. now rewrite (@repr_char_plain printable c Hc), IH.
Qed.

(** Token characters are plain as soon as the word characters outside
    ASCII are printable. *)
Lemma token_char_plain U printable c :
  (forall x, re_word U x = true -> (128 <= x)%N -> printable x = true) ->
  token_char U c = true -> plain printable c = true.
Proof.
  intros HP H. unfold plain.
  destruct (c <? 128)%N eqn:E.
  - unfold token_char, re_word, isalnum, isalpha, isdecimal, isdigit,
      isnumeric, is_sep, in_range in H. rewrite E in H.
    apply N.ltb_lt in E.
    assert (Hc : (48 <= c <= 57 \/ 65 <= c <= 90 \/ 97 <= c <= 122
                  \/ c = 95 \/ c = 46 \/ c = 45)%N).
    { repeat match type of H with
             | (_ || _) = true => apply orb_prop in H; destruct H as [H|H]
             end;
        try (apply andb_prop in H; destruct H as [Ha Hb];
             apply N.leb_le in Ha, Hb; lia);
        apply N.eqb_eq in H; unfold chr in H; simpl in H; lia. }
    replace (N.eqb c 39) with false by (symmetry; apply N.eqb_neq; lia).
    replace (N.eqb c 92) with false by (symmetry; apply N.eqb_neq; lia).
    replace (c <? 127)%N with true by (symmetry; apply N.ltb_lt; lia).
    cbn [negb andb]. apply N.leb_le. lia.
  - apply N.ltb_ge in E.
    assert (Hw : re_word U c = true).
    { unfold token_char in H. apply orb_prop in H. destruct H as [H|H];
        [exact H|].
      unfold is_sep in H. apply orb_prop in H.
      destruct H as [H|H]; apply N.eqb_eq in H; unfold chr in H;
        simpl in H; lia. }
    rewrite (HP c Hw E).
    replace (N.eqb c 39) with false by (symmetry; apply N.eqb_neq; lia).
    replace (N.eqb c 92) with false by (symmetry; apply N.eqb_neq; lia).
    replace (N.eqb c 127) with false by (symmetry; apply N.eqb_neq; lia).
    replace (c <? 127)%N with false by (symmetry; apply N.ltb_ge; lia).
    reflexivity.
Qed.

(** * Properties beyond the claims *)

(** X1.  The four outcomes of a call and when each happens: URLError when
    the request fails; UnicodeDecodeError when the body served is not valid
    UTF-8; IndexError when the body decodes and no [>] in it is followed by
    the start of a token (digits, a separator, a word character); a list of
    URLs when some [>] is. *)
Theorem outcomes_classified U site url :
  let base := strip (chr "/") url in
  let r := run_on site (bin_list U url) in
  (r = Raise URLError <-> site base = Failed)
  /\ (r = Raise UnicodeDecodeError
      <-> exists raw, site base = Served raw /\ ~ valid_utf8 raw)
  /\ (r = Raise IndexError
      <-> exists raw body,
            site base = Served raw /\ decode raw = Some body
            /\ forall pre t, body = pre ++ chr ">" :: t ->
                             token_starts_here U t = false)
  /\ ((exists l, r = Return l)
      <-> exists raw body pre t,
            site base = Served raw /\ decode raw = Some body
            /\ body = pre ++ chr ">" :: t
            /\ token_starts_here U t = true).
Proof.
  cbv zeta. rewrite run_on_bin_list. unfold outcome.
  destruct (site (strip (chr "/") url)) as [|raw] eqn:Hsite.
  { repeat split; try discriminate; try (intros [l Hl]; discriminate Hl).
    - intros (raw & H & _). discriminate H.
    - intros (raw & body & H & _). discriminate H.
    - intros (raw & body & pre & t & H & _). discriminate H. }
  destruct (decode raw) as [body|] eqn:Hdec.
  2:{ repeat split; try discriminate; try (intros [l Hl]; discriminate Hl).
      - intros _. exists raw. split; [reflexivity|].
        intros Hv. apply decode_valid in Hv. destruct Hv as [s Hs].
        congruence.
      - intros (raw' & body & [= <-] & H & _). congruence.
      - intros (raw' & body & pre & t & [= <-] & H & _). congruence. }
  assert (Hvalid : valid_utf8 raw) by (apply decode_valid; now exists body).
  destruct (sort_reverse (versions_of U pattern body)) as [|v r] eqn:E.
  - apply sort_reverse_nil in E.
    repeat split; try discriminate; try (intros [l Hl]; discriminate Hl).
    + intros (raw' & [= <-] & H). now elim H.
    + intros _. exists raw, body. repeat split; auto.
      now apply versions_of_nil_iff.
    + intros (raw' & body' & pre & t & [= <-] & Hd & Hb & Ht).
      rewrite Hdec in Hd. injection Hd as <-.
      exfalso. rewrite (proj1 (versions_of_nil_iff U body) E pre t Hb) in Ht.
      discriminate Ht.
  - assert (Hne : versions_of U pattern body <> []).
    { intros Hnil. rewrite Hnil in E. discriminate E. }
    repeat split; try discriminate.
    + intros (raw' & [= <-] & H). now elim H.
    + intros (raw' & body' & [= <-] & Hd & Hno).
      rewrite Hdec in Hd. injection Hd as <-.
      now apply versions_of_nil_iff in Hno.
    + intros _. destruct (versions_of U pattern body) as [|tok l] eqn:Ev;
        [now elim Hne|].
      assert (Hin : In tok (versions_of U pattern body))
        by (rewrite Ev; now left).
      apply versions_of_located in Hin.
      destruct Hin as (pre & post & Hb & _ & _ & Hs).
      now exists raw, body, pre, (tok ++ post).
    + intros _. eexists. reflexivity.
Qed.

(** X2.  Only the set of tokens matters: two bodies with the same tokens,
    in whatever order and however often, give the same result for the same
    base URL. *)
Theorem same_tokens_same_result U site1 site2 url raw1 raw2 body1 body2 :
  site1 (strip (chr "/") url) = Served raw1 ->
  site2 (strip (chr "/") url) = Served raw2 ->
  decode raw1 = Some body1 ->
  decode raw2 = Some body2 ->
  (forall t, In t (versions_of U pattern body1)
             <-> In t (versions_of U pattern body2)) ->
  run_on site1 (bin_list U url) = run_on site2 (bin_list U url).
Proof.
  intros H1 H2 D1 D2 Hsame.
  rewrite !run_on_bin_list, H1, H2.
  rewrite (outcome_served _ _ _ D1), (outcome_served _ _ _ D2).
  pose proof (sort_reverse_head_same _ _ Hsame) as Hh.
  destruct (sort_reverse (versions_of U pattern body1)),
           (sort_reverse (versions_of U pattern body2));
    try discriminate Hh; [reflexivity|].
  now injection Hh as ->.
Qed.

Lemma same_tokens_same_result_witness :
  run_on (serving listing_3_10) (bin_list ascii_ucd default_url)
  = run_on (serving (blit page_3_10_again)) (bin_list ascii_ucd default_url).
Proof.
  apply (@same_tokens_same_result ascii_ucd (serving listing_3_10)
           (serving (blit page_3_10_again)) default_url
           listing_3_10 (blit page_3_10_again)
           (lit page_3_10) (lit page_3_10_again)).
  - reflexivity.
  - reflexivity.
  - vm_compute. reflexivity.
  - vm_compute. reflexivity.
  - intros t. vm_compute. tauto.
Defined.

(** X3.  A token that is continued by another token is never selected: the
    longer one is above it in the order of strings, so a pre-release such as
    3.1.0-alpha-1 wins over the release 3.1.0. *)
Theorem extended_token_wins U site url raw body t s :
  site (strip (chr "/") url) = Served raw ->
  decode raw = Some body ->
  In t (versions_of U pattern body) ->
  In (t ++ s) (versions_of U pattern body) ->
  s <> [] ->
  exists latest,
    run_on site (bin_list U url)
    = Return [template_url (strip (chr "/") url) latest (lit "tar.gz");
              template_url (strip (chr "/") url) latest (lit "zip")]
    /\ str_ltb t latest = true /\ latest <> t.
Proof.
  intros Hsite Hdec Ht Hts Hs.
  rewrite run_on_bin_list, Hsite, (outcome_served _ _ _ Hdec).
  destruct (sort_reverse (versions_of U pattern body)) as [|v r] eqn:E.
  - apply sort_reverse_nil in E. rewrite E in Ht. destruct Ht.
  - destruct (sort_reverse_head _ E) as [_ Hmax].
    exists v. split; [reflexivity|].
    assert (Hlt : str_ltb t v = true).
    { destruct (str_ltb t v) eqn:Elt; [reflexivity|]. exfalso.
      apply Hmax in Hts. unfold str_leb in Hts.
      apply negb_true_iff in Hts.
      pose proof (@str_ge_trans t v (t ++ s) Elt Hts) as Hge.
      unfold str_ge in Hge. now rewrite (str_ltb_extend t Hs) in Hge. }
    split; [exact Hlt|]. intros ->. now rewrite str_ltb_irrefl in Hlt.
Qed.

Lemma extended_token_wins_witness :
  exists latest,
    run_on (serving (blit page_prerelease)) (bin_list ascii_ucd default_url)
    = Return [template_url (strip (chr "/") default_url) latest (lit "tar.gz");
              template_url (strip (chr "/") default_url) latest (lit "zip")]
    /\ str_ltb (lit "3.1.0") latest = true /\ latest <> lit "3.1.0".
Proof.
  apply (@extended_token_wins ascii_ucd (serving (blit page_prerelease))
           default_url (blit page_prerelease) (lit page_prerelease)
           (lit "3.1.0") (lit "-alpha-1")).
  - reflexivity.
  - vm_compute. reflexivity.
  - vm_compute. tauto.
  - vm_compute. tauto.
  - discriminate.
Defined.

(** X4.  A base URL that neither begins nor ends with a slash is requested
    as it is, whatever slashes are put in front of it and behind it; slashes
    inside it are kept. *)
Theorem request_is_stripped_text U W (serve : W -> str -> response * W) w
        (m : str) i j :
  hd_error m <> Some (chr "/") ->
  hd_error (rev m) <> Some (chr "/") ->
  snd (run serve
         (bin_list U (repeat (chr "/") i ++ m ++ repeat (chr "/") j)) w)
  = [m].
Proof.
  intros Hh Hl. rewrite run_bin_list. cbn [snd].
  now rewrite strip_exact.
Qed.

Lemma request_is_stripped_text_witness :
  snd (run (counting listing_3_8)
         (bin_list ascii_ucd
            (repeat (chr "/") 2 ++ lit "http://host/dist//maven-3"
               ++ repeat (chr "/") 1)) 0)
  = [lit "http://host/dist//maven-3"].
Proof.
  apply (@request_is_stripped_text ascii_ucd nat (counting listing_3_8) 0
           (lit "http://host/dist//maven-3") 2 1).
  - vm_compute. discriminate.
  - vm_compute. discriminate.
Defined.

(** X5.  The request goes to the empty string exactly when the base URL
    consists of slashes only (the empty URL included). *)
Theorem empty_request_iff_slashes U W (serve : W -> str -> response * W) w url :
  snd (run serve (bin_list U url) w) = [[]]
  <-> exists n, url = repeat (chr "/") n.
Proof.
  rewrite run_bin_list. cbn [snd]. split.
  - intros [= H]. now apply strip_nil_iff.
  - intros H. apply strip_nil_iff in H. now rewrite H.
Qed.

(** X6.  Decoding a body succeeds exactly when the body is the UTF-8
    encoding of a sequence of Unicode scalar values, and then gives that
    sequence; a body of ASCII octets is read octet for octet. *)
Theorem decode_exact raw :
  (forall s, decode raw = Some s
             <-> forallb is_scalar s = true
                 /\ List.map Byte.to_N raw = utf8_encode s)
  /\ (forallb (fun b => (Byte.to_N b <? 128)%N) raw = true
      -> decode raw = Some (List.map Byte.to_N raw)).
Proof.
  unfold decode. split.
  - intros s. split.
    + apply utf8_decode_sound.
    + intros [Hs ->]. now apply utf8_decode_encode.
  - induction raw as [|b raw IH]; [reflexivity|].
    cbn [forallb List.map utf8_decode]. intros H.
    apply andb_prop in H. destruct H as [Hb Hr].
    now rewrite Hb, (IH Hr).
Qed.

Lemma decode_exact_witness :
  decode listing_3_8 = Some (List.map Byte.to_N listing_3_8).
Proof.
  apply (proj2 (decode_exact listing_3_8)). vm_compute. reflexivity.
Defined.

(** X7.  The shape of every collected token: it begins with a digit, ends
    with a word character, has a separator in between (so at least three
    characters), and consists of word characters, dots and hyphens only; in
    particular it contains no slash. *)
Theorem collected_token_shape U body tok :
  In tok (versions_of U pattern body) ->
  (exists d mid l,
      tok = d :: mid ++ [l]
      /\ re_digit U d = true /\ re_word U l = true
      /\ Exists (fun c => is_sep c = true) mid)
  /\ Forall (fun c => token_char U c = true) tok
  /\ 3 <= List.length tok
  /\ ~ In (chr "/") tok.
Proof.
  intros H. apply versions_of_located in H.
  destruct H as (pre & post & _ & Hm & _).
  apply token_shape in Hm.
  destruct Hm as (d & mid & l & -> & Hd & Hl & Hs & HF).
  split; [now exists d, mid, l|]. split; [exact HF|]. split.
  - cbn [List.length]. rewrite length_app. cbn [List.length].
    destruct mid; [now inversion Hs | simpl; lia].
  - intros Hin. rewrite Forall_forall in HF. apply HF in Hin.
    discriminate Hin.
Qed.

Lemma collected_token_shape_witness :
  (exists d mid l,
      lit "3.8.5" = d :: mid ++ [l]
      /\ re_digit ascii_ucd d = true /\ re_word ascii_ucd l = true
      /\ Exists (fun c => is_sep c = true) mid)
  /\ Forall (fun c => token_char ascii_ucd c = true) (lit "3.8.5")
  /\ 3 <= List.length (lit "3.8.5")
  /\ ~ In (chr "/") (lit "3.8.5").
Proof.
  apply (@collected_token_shape ascii_ucd (lit page_3_8) (lit "3.8.5")).
  vm_compute. tauto.
Defined.

(** X8.  A collected token is as long as it can be: in the body it stands
    right after a [>], and what follows it is neither a word character nor a
    separator followed by a word character. *)
Theorem collected_token_maximal U body tok :
  In tok (versions_of U pattern body) ->
  exists pre post,
    body = pre ++ chr ">" :: tok ++ post
    /\ token_continues U post = false.
Proof.
  intros H. apply versions_of_located in H.
  destruct H as (pre & post & Hb & _ & Hmax & _). now exists pre, post.
Qed.

Lemma collected_token_maximal_witness :
  exists pre post,
    lit page_3_8 = pre ++ chr ">" :: lit "3.8.5" ++ post
    /\ token_continues ascii_ucd post = false.
Proof.
  apply (@collected_token_maximal ascii_ucd (lit page_3_8) (lit "3.8.5")).
  vm_compute. tauto.
Defined.

(** X9.  No version is missed: wherever the body has a [>] followed by the
    start of a token (digits, a separator, a word character), the token
    that starts there is collected, in its full length. *)
Theorem token_after_gt_is_collected U body pre t :
  body = pre ++ chr ">" :: t ->
  token_starts_here U t = true ->
  exists tok post,
    t = tok ++ post /\ tok <> []
    /\ In tok (versions_of U pattern body)
    /\ token_continues U post = false.
Proof. apply versions_of_complete. Qed.

Lemma token_after_gt_is_collected_witness :
  exists tok post,
    lit "3.8.4/</a> <a href=3.8.5/>3.8.5/</a></pre>" = tok ++ post
    /\ tok <> []
    /\ In tok (versions_of ascii_ucd pattern (lit page_3_8))
    /\ token_continues ascii_ucd post = false.
Proof.
  apply (@token_after_gt_is_collected ascii_ucd (lit page_3_8)
           (lit "<pre><a href=3.6.3/>3.6.3/</a> 2020-07-03 04:01 <a href=3.8.1/>3.8.1/</a> <a href=3.8.4/")).
  - vm_compute. reflexivity.
  - vm_compute. reflexivity.
Defined.

Lemma forallb_Forall (A : Type) (p : A -> bool) l :
  forallb p l = true -> Forall (fun x => p x = true) l.
Proof. intros H. apply Forall_forall. now apply forallb_forall. Qed.

(** The URLs built on a plain base are plain text when the version is. *)
Lemma urls_plain printable base v ext :
  Forall (fun c => plain printable c = true) base ->
  Forall (fun c => plain printable c = true) v ->
  forallb (plain printable) ext = true ->
  Forall (fun c => plain printable c = true) (template_url base v ext).
Proof.
  intros Hb Hv He. unfold template_url.
  repeat (apply Forall_app; split); auto using forallb_Forall.
  all: apply forallb_Forall; reflexivity.
Qed.

Lemma quoted_pair (a b : str) :
  lit "[" ++ ((39%N :: a ++ [39%N]) ++ lit ", " ++ (39%N :: b ++ [39%N]))
    ++ lit "]"
  = lit "['" ++ a ++ lit "', '" ++ b ++ lit "']".
Proof.
  change (lit "[") with [91%N]. change (lit "['") with [91%N; 39%N].
  change (lit ", ") with [44%N; 32%N].
  change (lit "', '") with [39%N; 44%N; 32%N; 39%N].
  change (lit "]") with [93%N]. change (lit "']") with [39%N; 93%N].
  cbn [app]. do 2 f_equal. rewrite <- !app_assoc. cbn [app].
  do 5 f_equal. now rewrite <- !app_assoc.
Qed.

(** X11.  The text that [f'{url}'] in the last line of the script makes of
    the list a call returns: for the URLs u1 and u2 it is ['u1', 'u2'], the
    URLs in single quotes and nothing escaped, provided the stripped base
    URL has only printable characters other than the single quote and the
    backslash, and the word characters outside ASCII are printable (as
    they are in the Unicode database). *)
Theorem returned_urls_format_unescaped U printable W
        (serve : W -> str -> response * W) w url u1 u2 :
  (forall x, re_word U x = true -> (128 <= x)%N -> printable x = true) ->
  Forall (fun c => plain printable c = true) (strip (chr "/") url) ->
  fst (fst (run serve (bin_list U url) w)) = Return [u1; u2] ->
  repr_list printable [u1; u2]
  = lit "['" ++ u1 ++ lit "', '" ++ u2 ++ lit "']".
Proof.
  intros HP Hb H.
  rewrite run_bin_list in H. cbn [fst] in H.
  apply outcome_Return in H.
  destruct H as (raw & body & v & r & _ & _ & E & [= -> ->]).
  destruct (sort_reverse_head _ E) as [Hin _].
  apply versions_of_located in Hin.
  destruct Hin as (pre & post & _ & Hm & _).
  apply token_shape in Hm. destruct Hm as (d & mid & l & _ & _ & _ & _ & HF).
  assert (Hv : Forall (fun c => plain printable c = true) v).
  { eapply Forall_impl; [|exact HF]. intros c.
    now apply token_char_plain. }
  unfold repr_list. cbn [List.map join].
  rewrite !repr_str_plain
    by (apply urls_plain; [exact Hb | exact Hv | reflexivity]).
  apply quoted_pair.
Qed.

Lemma returned_urls_format_unescaped_witness :
  repr_list (fun _ => true)
    [lit "https://archive.apache.org/dist/maven/maven-3/3.8.5/binaries/apache-maven-3.8.5-bin.tar.gz";
     lit "https://archive.apache.org/dist/maven/maven-3/3.8.5/binaries/apache-maven-3.8.5-bin.zip"]
  = lit "['"
    ++ lit "https://archive.apache.org/dist/maven/maven-3/3.8.5/binaries/apache-maven-3.8.5-bin.tar.gz"
    ++ lit "', '"
    ++ lit "https://archive.apache.org/dist/maven/maven-3/3.8.5/binaries/apache-maven-3.8.5-bin.zip"
    ++ lit "']".
Proof.
  apply (@returned_urls_format_unescaped ascii_ucd (fun _ => true) nat
           (counting listing_3_8) 0 default_url).
  - intros x _ _. reflexivity.
  - apply forallb_Forall. vm_compute. reflexivity.
  - vm_compute. reflexivity.
Defined.
